(** * Weighted percentile (skgarden/quantile/utils.py)

    A shallow embedding of [weighted_percentile] and of the NumPy array
    primitives it calls, followed by the properties of the function.

    Numbers.  The arguments are Python numbers.  The source converts the
    samples and the weights to [float32] (lines 51-52), keeps the ranks
    as [float64] and computes in floating point.  The function is
    embedded twice.

    - [Float.weighted_percentile] computes as the source does: every
      conversion and every operation is followed by the rounding, to the
      nearest float and to the even one on a tie, of the format NumPy
      gives its result ([fp.float32], [fp.float64]).  A finite float is
      the rational number it denotes; a run that reaches [inf] or [nan]
      is outside the model, which returns [None] for it.

    - [weighted_percentile] is the same function with every rounding
      left out: it computes in exact rationals.  What is stated of it
      does not depend on the arithmetic: which exception a call raises,
      arrays that are identical before any number is computed, and an
      example whose numbers are all exact in [float32].

    Numeric equality is [Qeq] ([==]), which is what [!=], [<] and [>] of
    the source decide on finite values.

    Exceptions.  A call either returns the array [q_values] or raises;
    the model returns [Ok v] or [Raise e]. *)

From Stdlib Require Import String.
From Stdlib Require Import List ZArith QArith Qminmax Qround Qabs Qpower.
From Stdlib Require Import Lia Lqa Bool.
From Stdlib Require Import Permutation Sorted.
Import ListNotations.

Open Scope Q_scope.

(** ** Exceptions and results *)

Inductive exn : Type :=
| ValueError (msg : string)
| IndexError.

Inductive result (A : Type) : Type :=
| Ok (x : A)
| Raise (e : exn).

Arguments Ok {A} x.
Arguments Raise {A} e.

Definition bind {A B : Type} (r : result A) (k : A -> result B) : result B :=
  match r with
  | Ok x => k x
  | Raise e => Raise e
  end.

Notation "x <- e ;; k" := (bind e (fun x => k))
  (at level 61, e at next level, right associativity).

(** The messages of the [ValueError]s the function can raise.  The message
    of an [IndexError] names the index and the size; it is not modelled. *)
Definition msg_q_range : string := "q should be in-between 0 and 100"%string.
Definition msg_length : string := "a and weights should have the same length."%string.
Definition msg_zero_size_max : string :=
  "zero-size array to reduction operation maximum which has no identity"%string.
Definition msg_zero_size_min : string :=
  "zero-size array to reduction operation minimum which has no identity"%string.

(** ** The rank argument

    [q] is a Python number or a sequence of numbers. *)

Inductive rank_arg : Type :=
| QScalar (q : Q)
| QArray (qs : list Q).

(** Array shapes: [()] for a Python scalar, [(k,)] for a flat array. *)
Definition shape : Type := list nat.
Definition scalar_shape : shape := [].
Definition rank_shape (q : rank_arg) : shape :=
  match q with
  | QScalar _ => scalar_shape
  | QArray qs => [length qs]
  end.
Definition ndarray_shape (v : list Q) : shape := [length v].

(** Strict comparison of two numbers, as a boolean. *)
Definition Qlt_bool (x y : Q) : bool := negb (Qle_bool y x).

(** ** NumPy primitives *)

Module np.

(** [np.ones_like(a)] *)
Definition ones_like (a : list Q) : list Q := map (fun _ => 1) a.

(** [np.array([q])] for a number, [np.array(q).flatten()] for a sequence. *)
Definition flatten (q : rank_arg) : list Q :=
  match q with
  | QScalar x => [x]
  | QArray qs => qs
  end.

(** [q.max()] and [q.min()]: a zero-size array has no maximum. *)
Definition amax (l : list Q) : result Q :=
  match l with
  | [] => Raise (ValueError msg_zero_size_max)
  | x :: t => Ok (fold_left Qmax t x)
  end.

Definition amin (l : list Q) : result Q :=
  match l with
  | [] => Raise (ValueError msg_zero_size_min)
  | x :: t => Ok (fold_left Qmin t x)
  end.

(** [l[i]] for an integer [i]: a negative index counts from the end, an
    index outside [-n, n) raises [IndexError]. *)
Definition getitem {A : Type} (l : list A) (i : Z) : result A :=
  let n := Z.of_nat (length l) in
  let j := (if i <? 0 then i + n else i)%Z in
  if ((j <? 0) || (n <=? j))%Z then Raise IndexError
  else match nth_error l (Z.to_nat j) with
       | Some x => Ok x
       | None => Raise IndexError
       end.

(** [l[idx]] for an integer array [idx] (fancy indexing). *)
Fixpoint take {A : Type} (l : list A) (idx : list Z) : result (list A) :=
  match idx with
  | [] => Ok []
  | i :: t => x <- getitem l i ;; r <- take l t ;; Ok (x :: r)
  end.

(** [l[m]] for a boolean mask [m].  NumPy raises when the two lengths
    differ; every mask of the function is computed from an array of the
    length of the array it selects from, so the model is total. *)
Fixpoint compress {A : Type} (m : list bool) (l : list A) : list A :=
  match m, l with
  | b :: m', x :: l' => if b then x :: compress m' l' else compress m' l'
  | _, _ => []
  end.

(** [v[m] = x] for a boolean mask [m] and a number [x]. *)
Fixpoint putmask (v : list Q) (m : list bool) (x : Q) : list Q :=
  match v, m with
  | y :: v', b :: m' => (if b then x else y) :: putmask v' m' x
  | _, _ => v
  end.

(** [v[m] = xs] for a boolean mask [m] and an array [xs] with one entry
    per [True] of [m]. *)
Fixpoint putmask_seq (v : list Q) (m : list bool) (xs : list Q) : list Q :=
  match v, m with
  | y :: v', b :: m' =>
      if b then
        match xs with
        | x :: xs' => x :: putmask_seq v' m' xs'
        | [] => y :: putmask_seq v' m' []
        end
      else y :: putmask_seq v' m' xs
  | _, _ => v
  end.

(** [np.zeros(shape)] for a flat shape. *)
Definition zeros (n : nat) : list Q := repeat 0 n.

(** Element-wise binary operation on two arrays of one length. *)
Fixpoint map2 {A B C : Type} (f : A -> B -> C) (l1 : list A) (l2 : list B) : list C :=
  match l1, l2 with
  | x :: t1, y :: t2 => f x y :: map2 f t1 t2
  | _, _ => []
  end.

(** [np.cumsum(l)] *)
Fixpoint cumsum_from (acc : Q) (l : list Q) : list Q :=
  match l with
  | [] => []
  | x :: t => (acc + x) :: cumsum_from (acc + x) t
  end.

Definition cumsum (l : list Q) : list Q :=
  match l with
  | [] => []
  | x :: t => x :: cumsum_from x t
  end.

(** [np.argsort(a)]: the indices that sort [a] ascending.  NumPy's default
    sort leaves the order of equal keys unspecified; this one is the
    insertion sort, which keeps their input order.
    [Float.weighted_percentile] takes the sort as a parameter. *)
Fixpoint insert_index (a : list Q) (i : nat) (idx : list nat) : list nat :=
  match idx with
  | [] => [i]
  | j :: t =>
      if Qle_bool (nth i a 0) (nth j a 0) then i :: j :: t
      else j :: insert_index a i t
  end.

Definition argsort_nat (a : list Q) : list nat :=
  fold_right (insert_index a) [] (seq 0 (length a)).

Definition argsort (a : list Q) : list Z := map Z.of_nat (argsort_nat a).

(** [np.searchsorted(arr, key)] with the default [side='left']: a binary
    search for the leftmost insertion point of [key], key by key.  The
    interval [lo, hi) halves at every step, so [length arr] steps are
    enough. *)
Fixpoint bisect_left (fuel : nat) (arr : list Q) (key : Q) (lo hi : nat) : nat :=
  match fuel with
  | O => lo
  | S fuel' =>
      if (lo <? hi)%nat then
        let mid := (lo + (hi - lo) / 2)%nat in
        if Qlt_bool (nth mid arr 0) key
        then bisect_left fuel' arr key (S mid) hi
        else bisect_left fuel' arr key lo mid
      else lo
  end.

Definition searchsorted (arr : list Q) (key : Q) : nat :=
  bisect_left (length arr) arr key 0 (length arr).

End np.

(** ** The function in exact arithmetic *)

(** [w != 0] of line 60. *)
Definition nonzero (w : Q) : bool := negb (Qeq_bool w 0).

(** Lines 56-70: reorder by [sorter] when given, drop the entries of
    weight zero, and sort by sample value when no [sorter] is given.
    Returns [(sorted_a, sorted_weights)]. *)
Definition prepare (a weights : list Q) (sorter : option (list Z))
  : result (list Q * list Q) :=
  aw <- match sorter with
        | Some s =>
            a' <- np.take a s ;;
            w' <- np.take weights s ;;
            Ok (a', w')
        | None => Ok (a, weights)
        end ;;
  let a := fst aw in
  let weights := snd aw in
  let nz := map nonzero weights in
  let a := np.compress nz a in
  let weights := np.compress nz weights in
  match sorter with
  | None =>
      let sorted_indices := np.argsort a in
      sorted_a <- np.take a sorted_indices ;;
      sorted_weights <- np.take weights sorted_indices ;;
      Ok (sorted_a, sorted_weights)
  | Some _ => Ok (a, weights)
  end.

(** Line 77: the position of every sorted sample on the 0-100 scale. *)
Definition partial_sum_of (total : Q) (sorted_cum_weights sorted_weights : list Q)
  : list Q :=
  map (fun x => 100 / total * x)
      (np.map2 Qminus sorted_cum_weights (map (fun w => w / 2) sorted_weights)).

(** Lines 78-88: clamp or interpolate every rank of [q]. *)
Definition interpolate (sorted_a sorted_cum_weights partial_sum q : list Q)
  : result (list Q) :=
  let n := Z.of_nat (length sorted_cum_weights) in
  let start := map (fun x => (Z.of_nat (np.searchsorted partial_sum x) - 1)%Z) q in
  let q_values := np.zeros (length q) in
  a_last <- np.getitem sorted_a (-1) ;;
  let q_values := np.putmask q_values (map (fun s => (s =? n - 1)%Z) start) a_last in
  a_first <- np.getitem sorted_a 0 ;;
  let q_values := np.putmask q_values (map (fun s => (s =? -1)%Z) start) a_first in
  let valid :=
    map (fun s => negb (s =? n - 1)%Z && negb (s =? -1)%Z) start in
  let q_valid := np.compress valid q in
  let start_valid := np.compress valid start in
  let start_next := map (fun s => (s + 1)%Z) start_valid in
  p_lo <- np.take partial_sum start_valid ;;
  p_hi <- np.take partial_sum start_next ;;
  let fraction :=
    np.map2 Qdiv (np.map2 Qminus q_valid p_lo) (np.map2 Qminus p_hi p_lo) in
  a_lo <- np.take sorted_a start_valid ;;
  a_hi <- np.take sorted_a start_next ;;
  let values :=
    np.map2 Qplus a_lo (np.map2 Qmult fraction (np.map2 Qminus a_hi a_lo)) in
  Ok (np.putmask_seq q_values valid values).

(** Lines 72-88: from the sorted samples and weights to the values. *)
Definition percentiles_of_sorted (sorted_a sorted_weights q : list Q)
  : result (list Q) :=
  let sorted_cum_weights := np.cumsum sorted_weights in
  total <- np.getitem sorted_cum_weights (-1) ;;
  let partial_sum := partial_sum_of total sorted_cum_weights sorted_weights in
  interpolate sorted_a sorted_cum_weights partial_sum q.

(** Lines 40-41: the weights default to ones. *)
Definition default_weights (a : list Q) (weights : option (list Q)) : list Q :=
  match weights with
  | None => np.ones_like a
  | Some w => w
  end.

(** [weighted_percentile(a, q, weights=None, sorter=None)].  Both
    reductions of line 48 raise on an empty [q], the maximum first. *)
Definition weighted_percentile (a : list Q) (q : rank_arg)
    (weights : option (list Q)) (sorter : option (list Z)) : result (list Q) :=
  let weights := default_weights a weights in
  let q := np.flatten q in
  q_max <- np.amax q ;;
  q_min <- np.amin q ;;
  if Qlt_bool 100 q_max || Qlt_bool q_min 0
  then Raise (ValueError msg_q_range)
  else if negb (length a =? length weights)%nat
  then Raise (ValueError msg_length)
  else
    sw <- prepare a weights sorter ;;
    percentiles_of_sorted (fst sw) (snd sw) q.

(** ** Predicates of the statements *)

(** A rank of the closed interval [0, 100]. *)
Definition in_range (x : Q) : Prop := 0 <= x /\ x <= 100.

(** A rank argument with at least one rank, all of them in range. *)
Definition valid_ranks (q : rank_arg) : Prop :=
  np.flatten q <> [] /\ Forall in_range (np.flatten q).

(** [l] is ascending: entries at increasing positions do not decrease. *)
Definition ascending (l : list Q) : Prop :=
  forall i j, (i <= j < length l)%nat -> nth i l 0 <= nth j l 0.

(** [l] is strictly ascending. *)
Definition strictly_ascending (l : list Q) : Prop :=
  forall i j, (i < j < length l)%nat -> nth i l 0 < nth j l 0.

(** The samples of [a] whose weight is not zero, in input order. *)
Definition nonzero_samples (a weights : list Q) : list Q :=
  np.compress (map nonzero weights) a.

(** [v] is an entry of [l] and no entry is smaller (larger). *)
Definition is_minimum (v : Q) (l : list Q) : Prop :=
  In v l /\ forall x, In x l -> v <= x.

Definition is_maximum (v : Q) (l : list Q) : Prop :=
  In v l /\ forall x, In x l -> x <= v.

(** A [sorter] as the function's documentation asks for it: a permutation
    of the indices [0 .. n-1] under which the samples are ascending. *)
Definition valid_sorter (a : list Q) (sorter : option (list Z)) : Prop :=
  match sorter with
  | None => True
  | Some s =>
      Permutation s (map Z.of_nat (seq 0 (length a))) /\
      ascending (map (fun i => nth (Z.to_nat i) a 0) s)
  end.

(** [l] with [x] inserted at position [i] (at the end when [i] is
    past it). *)
Definition insert_at {A : Type} (i : nat) (x : A) (l : list A) : list A :=
  firstn i l ++ x :: skipn i l.

(** The value the function computes for one rank [x], given the sorted
    samples and their positions. *)
Definition percentile_at (sorted_a partial_sum : list Q) (x : Q) : Q :=
  let n := length partial_sum in
  let r := np.searchsorted partial_sum x in
  match r with
  | O => nth 0 sorted_a 0
  | S k =>
      if (r =? n)%nat then nth (n - 1) sorted_a 0
      else nth k sorted_a 0 +
           (x - nth k partial_sum 0) / (nth r partial_sum 0 - nth k partial_sum 0) *
           (nth r sorted_a 0 - nth k sorted_a 0)
  end.

(** The order of two indices by their keys in [a]. *)
Definition key_le (a : list Q) (i j : nat) : Prop := nth i a 0 <= nth j a 0.

(** The (sample, weight) pairs that survive the filter of lines 60-62. *)
Definition nonzero_pairs (a weights : list Q) : list (Q * Q) :=
  filter (fun p => nonzero (snd p)) (combine a weights).

(** What lines 56-70 establish about [(sorted_a, sorted_weights)]. *)
Definition prepared (a weights sorted_a sorted_weights : list Q) : Prop :=
  length sorted_a = length sorted_weights /\
  StronglySorted Qle sorted_a /\
  Permutation (combine sorted_a sorted_weights) (nonzero_pairs a weights).

(** Line 74: the total weight; line 77: the positions. *)
Definition total_weight (sw : list Q) : Q := nth (length sw - 1) (np.cumsum sw) 0.

Definition positions (sw : list Q) : list Q :=
  partial_sum_of (total_weight sw) (np.cumsum sw) sw.

(** The weights that survive the filter of lines 60-62. *)
Definition effective_weights (weights : list Q) : list Q :=
  np.compress (map nonzero weights) weights.

(** Samples that compare equal are the same entry with the same weight. *)
Definition ties_identical (a w : list Q) : Prop :=
  forall i j, (i < length a)%nat -> (j < length a)%nat ->
    nth i a 0 == nth j a 0 ->
    nth i a 0 = nth j a 0 /\ nth i w 0 = nth j w 0.

(** Samples that compare equal have weights that compare equal. *)
Definition ties_share_weight (a w : list Q) : Prop :=
  forall i j, (i < length a)%nat -> (j < length a)%nat ->
    nth i a 0 == nth j a 0 -> nth i w 0 == nth j w 0.

(** The order of two (sample, weight) pairs by their samples. *)
Definition sample_le (p r : Q * Q) : Prop := fst p <= fst r.

(** ** Floating point

    A finite binary float is the rational it denotes.  [round prec emin]
    is rounding to the nearest float of [prec] binary digits whose least
    positive number is [2^emin], to the even one on a tie, with no bound
    on the exponent: a result above the greatest float of the format
    ([max32], [max64]) is what the machine rounds to [inf]. *)

Module fp.

(** [2^e] *)
Definition pow2 (e : Z) : Q := 2 ^ e.

(** The integer [l] with [2^l <= x < 2^(l+1)], for [0 < x]. *)
Definition ilog2 (x : Q) : Z :=
  let l := (Z.log2 (Qnum x) - Z.log2 (Zpos (Qden x)))%Z in
  if Qle_bool (pow2 l) x then l else (l - 1)%Z.

(** The nearest integer, the even one on a tie. *)
Definition rne (x : Q) : Z :=
  let f := Qfloor x in
  match Qcompare (x - inject_Z f) (1 # 2) with
  | Lt => f
  | Eq => if Z.even f then f else (f + 1)%Z
  | Gt => (f + 1)%Z
  end.

(** The exponent of the last digit of the floats around [x], for [0 < x]. *)
Definition cexp (prec emin : Z) (x : Q) : Z :=
  Z.max (ilog2 x - (prec - 1)) emin.

(** Rounding of [0 < x]. *)
Definition round_pos (prec emin : Z) (x : Q) : Q :=
  let e := cexp prec emin x in
  inject_Z (rne (x / pow2 e)) * pow2 e.

(** Rounding is symmetric about zero. *)
Definition round (prec emin : Z) (x : Q) : Q :=
  match Qcompare x 0 with
  | Eq => 0
  | Gt => Qred (round_pos prec emin x)
  | Lt => Qred (- round_pos prec emin (- x))
  end.

(** binary32 and binary64, with their greatest finite numbers. *)
Definition float32 : Q -> Q := round 24 (-149).
Definition float64 : Q -> Q := round 53 (-1074).
Definition max32 : Q := inject_Z ((2 ^ 24 - 1) * 2 ^ 104).
Definition max64 : Q := inject_Z ((2 ^ 53 - 1) * 2 ^ 971).
Definition finite32 (x : Q) : bool := Qle_bool (Qabs x) max32.
Definition finite64 (x : Q) : bool := Qle_bool (Qabs x) max64.

(** The numbers [m 2^e] with [|m| <= 2^prec] and [emin <= e]: every float
    of the format is one. *)
Definition representable (prec emin : Z) (v : Q) : Prop :=
  exists m e : Z, v == inject_Z m * pow2 e /\ (Z.abs m <= 2 ^ prec)%Z /\ (emin <= e)%Z.

End fp.

Import fp.

(** ** The function in floating point

    The format of every result is the one NumPy's promotion rules give
    it (NumPy 2: a Python number adapts to the array or NumPy scalar it
    meets).  [a] and [weights] are [float32] arrays from line 51 on, so
    are the cumulative sums, [total], [100.0 / total], the halved weights
    and [partial_sum]; [q] is an array of doubles (or of integers, which
    are exact doubles), so every operation that involves [q] or
    [fraction] is a [float64] operation.  [np.searchsorted] compares a
    position and a rank exactly. *)

Module Float.

(** [np.asarray(l, dtype=np.float32)] of lines 51-52 for a sequence of
    Python numbers: every number is a double, converted to single. *)
Definition asarray32 (l : list Q) : list Q := map (fun x => float32 (float64 x)) l.

(** [np.array(q)] of lines 44-46: an array of doubles. *)
Definition array64 (l : list Q) : list Q := map float64 l.

(** [np.cumsum(l)] on a [float32] array: every partial sum is rounded. *)
Fixpoint cumsum_from (acc : Q) (l : list Q) : list Q :=
  match l with
  | [] => []
  | x :: t => float32 (acc + x) :: cumsum_from (float32 (acc + x)) t
  end.

Definition cumsum (l : list Q) : list Q :=
  match l with
  | [] => []
  | x :: t => x :: cumsum_from x t
  end.

(** Lines 56-70, with the sort of line 65 as a parameter. *)
Definition prepare (argsort : list Q -> list Z) (a weights : list Q)
    (sorter : option (list Z)) : result (list Q * list Q) :=
  aw <- match sorter with
        | Some s =>
            a' <- np.take a s ;;
            w' <- np.take weights s ;;
            Ok (a', w')
        | None => Ok (a, weights)
        end ;;
  let a := fst aw in
  let weights := snd aw in
  let nz := map nonzero weights in
  let a := np.compress nz a in
  let weights := np.compress nz weights in
  match sorter with
  | None =>
      let sorted_indices := argsort a in
      sorted_a <- np.take a sorted_indices ;;
      sorted_weights <- np.take weights sorted_indices ;;
      Ok (sorted_a, sorted_weights)
  | Some _ => Ok (a, weights)
  end.

(** Line 77 in [float32]: [100.0 / total] is one number, rounded; the
    halved weights, the differences and the products are rounded entry by
    entry. *)
Definition scale (total : Q) : Q := float32 (100 / total).

Definition halves (sorted_weights : list Q) : list Q :=
  map (fun w => float32 (w / 2)) sorted_weights.

Definition centres (sorted_cum_weights sorted_weights : list Q) : list Q :=
  np.map2 (fun s h => float32 (s - h)) sorted_cum_weights (halves sorted_weights).

Definition partial_sum_of (total : Q) (sorted_cum_weights sorted_weights : list Q)
  : list Q :=
  map (fun x => float32 (scale total * x)) (centres sorted_cum_weights sorted_weights).

(** Lines 78-88.  [q] and the quotient of line 85 are doubles, the
    positions and the samples are singles: [q - partial_sum] is a double,
    the two differences of neighbours are singles, the quotient, the
    product and the sum of line 88 are doubles. *)
Definition interpolate (sorted_a sorted_cum_weights partial_sum q : list Q)
  : result (list Q) :=
  let n := Z.of_nat (length sorted_cum_weights) in
  let start := map (fun x => (Z.of_nat (np.searchsorted partial_sum x) - 1)%Z) q in
  let q_values := np.zeros (length q) in
  a_last <- np.getitem sorted_a (-1) ;;
  let q_values := np.putmask q_values (map (fun s => (s =? n - 1)%Z) start) a_last in
  a_first <- np.getitem sorted_a 0 ;;
  let q_values := np.putmask q_values (map (fun s => (s =? -1)%Z) start) a_first in
  let valid :=
    map (fun s => negb (s =? n - 1)%Z && negb (s =? -1)%Z) start in
  let q_valid := np.compress valid q in
  let start_valid := np.compress valid start in
  let start_next := map (fun s => (s + 1)%Z) start_valid in
  p_lo <- np.take partial_sum start_valid ;;
  p_hi <- np.take partial_sum start_next ;;
  let fraction :=
    np.map2 (fun x y => float64 (x / y))
            (np.map2 (fun x y => float64 (x - y)) q_valid p_lo)
            (np.map2 (fun x y => float32 (x - y)) p_hi p_lo) in
  a_lo <- np.take sorted_a start_valid ;;
  a_hi <- np.take sorted_a start_next ;;
  let values :=
    np.map2 (fun x y => float64 (x + y)) a_lo
            (np.map2 (fun x y => float64 (x * y)) fraction
                     (np.map2 (fun x y => float32 (x - y)) a_hi a_lo)) in
  Ok (np.putmask_seq q_values valid values).

(** The value of lines 79-88 for one rank [x]. *)
Definition percentile_at (sorted_a partial_sum : list Q) (x : Q) : Q :=
  let n := length partial_sum in
  let r := np.searchsorted partial_sum x in
  match r with
  | O => nth 0 sorted_a 0
  | S k =>
      if (r =? n)%nat then nth (n - 1) sorted_a 0
      else float64 (nth k sorted_a 0 +
           float64 (float64 (float64 (x - nth k partial_sum 0) /
                             float32 (nth r partial_sum 0 - nth k partial_sum 0)) *
                    float32 (nth r sorted_a 0 - nth k sorted_a 0)))
  end.

(** Line 74 and line 77 from the sorted weights. *)
Definition total_weight (sw : list Q) : Q := nth (length sw - 1) (cumsum sw) 0.

Definition positions (sw : list Q) : list Q :=
  partial_sum_of (total_weight sw) (cumsum sw) sw.

(** *** The runs the model covers

    The numbers of the model are the finite floats.  A run of the source
    in which a conversion or an operation overflows goes on with [inf] or
    [nan], as does one that divides by a total weight of zero; on
    positions that are not ascending (weights of both signs)
    [np.searchsorted] need not bracket its key.  For such a run the model
    returns [None]. *)
Fixpoint ascendingb (l : list Q) : bool :=
  match l with
  | x :: ((y :: _) as t) => Qle_bool x y && ascendingb t
  | _ => true
  end.

Definition positions_finite (sw : list Q) : bool :=
  nonzero (total_weight sw) &&
  forallb finite32
    (scale (total_weight sw) :: cumsum sw ++ halves sw ++ centres (cumsum sw) sw
       ++ positions sw).

Definition interpolation_finite (sorted_a partial_sum : list Q) (x : Q) : bool :=
  let n := length partial_sum in
  let r := np.searchsorted partial_sum x in
  match r with
  | O => true
  | S k =>
      (r =? n)%nat ||
      let num := float64 (x - nth k partial_sum 0) in
      let den := float32 (nth r partial_sum 0 - nth k partial_sum 0) in
      let d := float32 (nth r sorted_a 0 - nth k sorted_a 0) in
      finite64 num && finite32 den && finite64 (float64 (num / den)) &&
      finite32 d && finite64 (float64 (float64 (num / den) * d)) &&
      finite64 (percentile_at sorted_a partial_sum x)
  end.

(** Lines 72-88. *)
Definition percentiles_of_sorted (sorted_a sorted_weights q : list Q)
  : option (result (list Q)) :=
  let sorted_cum_weights := cumsum sorted_weights in
  match np.getitem sorted_cum_weights (-1) with
  | Raise e => Some (Raise e)
  | Ok total =>
      let partial_sum := partial_sum_of total sorted_cum_weights sorted_weights in
      if positions_finite sorted_weights && ascendingb partial_sum &&
         forallb (interpolation_finite sorted_a partial_sum) q
      then Some (interpolate sorted_a sorted_cum_weights partial_sum q)
      else None
  end.

(** [weighted_percentile(a, q, weights=None, sorter=None)] on Python
    numbers.  The checks come in the order of the source: the range of
    the ranks (line 48), the conversions (lines 51-52; a Python integer
    beyond the doubles is refused there, which the model leaves out), the
    lengths (line 53). *)
Definition weighted_percentile (argsort : list Q -> list Z) (a : list Q)
    (q : rank_arg) (weights : option (list Q)) (sorter : option (list Z))
  : option (result (list Q)) :=
  let weights := default_weights a weights in
  let q := array64 (np.flatten q) in
  match (q_max <- np.amax q ;; q_min <- np.amin q ;; Ok (q_max, q_min)) with
  | Raise e => Some (Raise e)
  | Ok (q_max, q_min) =>
      if Qlt_bool 100 q_max || Qlt_bool q_min 0
      then Some (Raise (ValueError msg_q_range))
      else if negb (forallb finite64 (array64 a ++ array64 weights)) then None
      else
        let a := asarray32 a in
        let weights := asarray32 weights in
        if negb (length a =? length weights)%nat
        then Some (Raise (ValueError msg_length))
        else if negb (forallb finite32 (a ++ weights)) then None
        else
          match prepare argsort a weights sorter with
          | Raise e => Some (Raise e)
          | Ok (sorted_a, sorted_weights) =>
              percentiles_of_sorted sorted_a sorted_weights q
          end
  end.

(** The array [partial_sum] of line 77 in a call (empty when lines 56-70
    raise). *)
Definition partial_sum (argsort : list Q -> list Z) (a : list Q)
    (weights : option (list Q)) (sorter : option (list Z)) : list Q :=
  match prepare argsort (asarray32 a) (asarray32 (default_weights a weights)) sorter with
  | Ok (_, sorted_weights) => positions sorted_weights
  | Raise _ => []
  end.

End Float.

(** ** Comparisons and reductions *)

Lemma Qlt_bool_iff (x y : Q) : Qlt_bool x y = true <-> x < y.
Proof.
  unfold Qlt_bool. rewrite negb_true_iff.
  split; intro H.
  - apply Qnot_le_lt. intro Hle. apply Qle_bool_iff in Hle. congruence.
  - destruct (Qle_bool y x) eqn:E; [|reflexivity].
    apply Qle_bool_iff in E. exfalso. apply (Qlt_not_le _ _ H E).
Qed.

Lemma Qlt_bool_false_iff (x y : Q) : Qlt_bool x y = false <-> y <= x.
Proof.
  unfold Qlt_bool. rewrite negb_false_iff. apply Qle_bool_iff.
Qed.

Lemma nonzero_true_iff (w : Q) : nonzero w = true <-> ~ w == 0.
Proof.
  unfold nonzero. rewrite negb_true_iff. split; intro H.
  - now apply Qeq_bool_neq.
  - destruct (Qeq_bool w 0) eqn:E; [|reflexivity].
    apply Qeq_bool_iff in E. contradiction.
Qed.

Lemma nonzero_false_iff (w : Q) : nonzero w = false <-> w == 0.
Proof.
  unfold nonzero. rewrite negb_false_iff. apply Qeq_bool_iff.
Qed.

Lemma fold_left_Qmax_lt (t : list Q) (x c : Q) :
  c < fold_left Qmax t x <-> c < x \/ Exists (fun y => c < y) t.
Proof.
  revert x. induction t as [|y t IH]; intro x; simpl.
  - split; [auto | intros [H|H]; [exact H | inversion H]].
  - rewrite IH, Q.max_lt_iff, Exists_cons. tauto.
Qed.

Lemma fold_left_Qmin_lt (t : list Q) (x c : Q) :
  fold_left Qmin t x < c <-> x < c \/ Exists (fun y => y < c) t.
Proof.
  revert x. induction t as [|y t IH]; intro x; simpl.
  - split; [auto | intros [H|H]; [exact H | inversion H]].
  - rewrite IH, Q.min_lt_iff, Exists_cons. tauto.
Qed.


Lemma range_test_false (x : Q) (t : list Q) :
  Forall in_range (x :: t) ->
  Qlt_bool 100 (fold_left Qmax t x) || Qlt_bool (fold_left Qmin t x) 0 = false.
Proof.
  intro H. apply not_true_is_false. intro Hb.
  apply orb_true_iff in Hb.
  rewrite !Qlt_bool_iff, fold_left_Qmax_lt, fold_left_Qmin_lt in Hb.
  rewrite Forall_forall in H.
  assert (Hx : in_range x) by (apply H; now left).
  assert (Ht : forall y, In y t -> in_range y) by (intros; apply H; now right).
  destruct Hx as [Hx0 Hx1].
  destruct Hb as [[Hb|Hb]|[Hb|Hb]];
    try (apply Exists_exists in Hb; destruct Hb as (y & Hy & Hlt);
         destruct (Ht y Hy) as [Hy0 Hy1]). all: lra.
Qed.

(** ** The validation of lines 48-54 *)



Lemma wp_validated a q weights sorter :
  valid_ranks q ->
  length a = length (default_weights a weights) ->
  weighted_percentile a q weights sorter =
  (sw <- prepare a (default_weights a weights) sorter ;;
   percentiles_of_sorted (fst sw) (snd sw) (np.flatten q)).
Proof.
  intros [Hne Hr] Hlen. unfold weighted_percentile.
  destruct (np.flatten q) as [|x t] eqn:E; [congruence|].
  cbn [np.amax np.amin bind]. rewrite range_test_false by assumption.
  apply Nat.eqb_eq in Hlen. now rewrite Hlen.
Qed.

(** ** Indexing *)

Lemma getitem_nat {A : Type} (l : list A) (i : nat) (d : A) :
  (i < length l)%nat -> np.getitem l (Z.of_nat i) = Ok (nth i l d).
Proof.
  intro H. unfold np.getitem.
  destruct (Z.ltb_spec (Z.of_nat i) 0) as [Hn|_]; [lia|].
  destruct (Z.ltb_spec (Z.of_nat i) 0) as [Hn|_]; [lia|].
  destruct (Z.leb_spec (Z.of_nat (length l)) (Z.of_nat i)) as [Hn|_]; [lia|].
  cbn [orb]. rewrite Nat2Z.id.
  destruct (nth_error l i) eqn:E.
  - now rewrite (nth_error_nth _ _ d E).
  - apply nth_error_None in E. lia.
Qed.

Lemma getitem_last {A : Type} (l : list A) (d : A) :
  l <> [] -> np.getitem l (-1) = Ok (nth (length l - 1) l d).
Proof.
  intro H. assert (Hlen : (0 < length l)%nat) by (destruct l; [congruence | simpl; lia]).
  rewrite <- (getitem_nat l (length l - 1) d) by lia.
  unfold np.getitem. cbn [Z.ltb Z.compare].
  destruct (Z.ltb_spec (Z.of_nat (length l - 1)) 0) as [Hn|_]; [lia|].
  replace (-1 + Z.of_nat (length l))%Z with (Z.of_nat (length l - 1)) by lia.
  reflexivity.
Qed.

(** Indexing raises nothing but [IndexError]. *)
Lemma getitem_raises {A : Type} (l : list A) (i : Z) (e : exn) :
  np.getitem l i = Raise e -> e = IndexError.
Proof.
  unfold np.getitem.
  destruct (_ || _); [congruence|].
  destruct (nth_error _ _); congruence.
Qed.

Lemma take_raises {A : Type} (l : list A) (idx : list Z) (e : exn) :
  np.take l idx = Raise e -> e = IndexError.
Proof.
  induction idx as [|i t IH]; simpl; [discriminate|].
  destruct (np.getitem l i) eqn:E; simpl.
  - destruct (np.take l t); simpl; [discriminate|].
    intro H. apply IH. congruence.
  - intro H. apply (getitem_raises l i). congruence.
Qed.

Lemma take_nat {A : Type} (l : list A) (idx : list nat) (d : A) :
  Forall (fun i => (i < length l)%nat) idx ->
  np.take l (map Z.of_nat idx) = Ok (map (fun i => nth i l d) idx).
Proof.
  induction 1 as [|i t Hi Ht IH]; simpl; [reflexivity|].
  now rewrite (getitem_nat l i d Hi), IH.
Qed.

Lemma take_Z {A : Type} (l : list A) (idx : list Z) (d : A) :
  Forall (fun i => (0 <= i < Z.of_nat (length l))%Z) idx ->
  np.take l idx = Ok (map (fun i => nth (Z.to_nat i) l d) idx).
Proof.
  intro H.
  rewrite <- (map_id idx) at 1.
  rewrite (map_ext_in (fun i => i) (fun i => Z.of_nat (Z.to_nat i))).
  - rewrite <- map_map. rewrite (take_nat l (map Z.to_nat idx) d).
    + now rewrite map_map.
    + rewrite Forall_forall in *. intros i Hi.
      apply in_map_iff in Hi. destruct Hi as (z & <- & Hz).
      specialize (H z Hz). lia.
  - intros i Hi. rewrite Forall_forall in H. specialize (H i Hi). lia.
Qed.

Lemma take_length {A : Type} (l : list A) (idx : list Z) (r : list A) :
  np.take l idx = Ok r -> length r = length idx.
Proof.
  revert r. induction idx as [|i t IH]; simpl; intros r H.
  - now inversion H.
  - destruct (np.getitem l i); simpl in H; [|discriminate].
    destruct (np.take l t) eqn:E; simpl in H; [|discriminate].
    inversion H. simpl. f_equal. now apply IH.
Qed.

(** Reading a list at all its indices gives the list back. *)
Lemma map_nth_seq {A : Type} (l : list A) (d : A) :
  map (fun i => nth i l d) (seq 0 (length l)) = l.
Proof.
  induction l as [|x l IH]; simpl; [reflexivity|].
  f_equal. rewrite <- seq_shift, map_map. exact IH.
Qed.

Lemma gather_permutation {A : Type} (l : list A) (idx : list nat) (d : A) :
  Permutation idx (seq 0 (length l)) ->
  Permutation (map (fun i => nth i l d) idx) l.
Proof.
  intro H. apply Permutation_trans with (map (fun i => nth i l d) (seq 0 (length l))).
  - now apply Permutation_map.
  - now rewrite map_nth_seq.
Qed.

Lemma gather_combine {A B : Type} (a : list A) (w : list B) (idx : list nat) da dw :
  length a = length w ->
  combine (map (fun i => nth i a da) idx) (map (fun i => nth i w dw) idx) =
  map (fun i => nth i (combine a w) (da, dw)) idx.
Proof.
  intro H. induction idx as [|i t IH]; simpl; [reflexivity|].
  now rewrite IH, combine_nth.
Qed.

(** ** Boolean masks *)

Lemma compress_length {A B : Type} (m : list bool) (a : list A) (w : list B) :
  length a = length w -> length (np.compress m a) = length (np.compress m w).
Proof.
  revert a w. induction m as [|b m IH]; intros [|x a] [|y w] H; simpl in *;
    try reflexivity; try discriminate.
  destruct b; simpl; auto.
Qed.

Lemma compress_combine {A B : Type} (f : B -> bool) (a : list A) (w : list B) :
  length a = length w ->
  combine (np.compress (map f w) a) (np.compress (map f w) w) =
  filter (fun p => f (snd p)) (combine a w).
Proof.
  revert w. induction a as [|x a IH]; intros [|y w] H; simpl in *;
    try reflexivity; try discriminate.
  destruct (f y); simpl; rewrite IH by lia; reflexivity.
Qed.

Lemma compress_app {A : Type} (m1 m2 : list bool) (l1 l2 : list A) :
  length m1 = length l1 ->
  np.compress (m1 ++ m2) (l1 ++ l2) = np.compress m1 l1 ++ np.compress m2 l2.
Proof.
  revert l1. induction m1 as [|b m1 IH]; intros [|x l1] H; simpl in *;
    try reflexivity; try discriminate.
  destruct b; simpl; rewrite IH by lia; reflexivity.
Qed.

Lemma compress_In {A : Type} (m : list bool) (l : list A) (x : A) :
  In x (np.compress m l) -> In x l.
Proof.
  revert l. induction m as [|b m IH]; intros [|y l]; simpl; try tauto.
  destruct b; simpl; intuition.
Qed.

(** ** Ascending lists *)

Lemma ascending_StronglySorted (l : list Q) :
  ascending l <-> StronglySorted Qle l.
Proof.
  split.
  - induction l as [|x l IH]; intro H; constructor.
    + apply IH. intros i j Hij. apply (H (S i) (S j)). simpl. lia.
    + apply Forall_forall. intros y Hy.
      destruct (In_nth l y 0 Hy) as (j & Hj & <-).
      apply (H 0%nat (S j)). simpl. lia.
  - induction 1 as [|x l Hs IH Hx]; intros i j Hij; simpl in Hij.
    + lia.
    + destruct i as [|i], j as [|j]; simpl; try lia.
      * apply Qle_refl.
      * rewrite Forall_forall in Hx. apply Hx, nth_In. lia.
      * apply IH. lia.
Qed.

Lemma StronglySorted_compress (m : list bool) (l : list Q) :
  StronglySorted Qle l -> StronglySorted Qle (np.compress m l).
Proof.
  intro H. revert m. induction H as [|x l Hs IH Hx]; intros [|b m]; simpl;
    try constructor.
  destruct b; [|apply IH].
  constructor; [apply IH|].
  rewrite Forall_forall in *. intros y Hy. apply Hx.
  now apply compress_In in Hy.
Qed.

(** ** [np.argsort] sorts *)

Section Argsort.

Variable a : list Q.

Lemma insert_index_perm (i : nat) (idx : list nat) :
  Permutation (np.insert_index a i idx) (i :: idx).
Proof.
  induction idx as [|j t IH]; simpl; [reflexivity|].
  destruct (Qle_bool _ _); [reflexivity|].
  rewrite IH. apply perm_swap.
Qed.

Lemma insert_index_sorted (i : nat) (idx : list nat) :
  StronglySorted (key_le a) idx -> StronglySorted (key_le a) (np.insert_index a i idx).
Proof.
  induction 1 as [|j t Hs IH Hj]; simpl.
  - repeat constructor.
  - destruct (Qle_bool (nth i a 0) (nth j a 0)) eqn:E.
    + apply Qle_bool_iff in E.
      constructor; [now constructor|].
      constructor; [exact E|].
      rewrite Forall_forall in *. intros k Hk.
      unfold key_le in *. eapply Qle_trans; [exact E | now apply Hj].
    + constructor; [exact IH|].
      assert (Hji : key_le a j i).
      { unfold key_le. apply Qlt_le_weak, Qlt_bool_iff.
        unfold Qlt_bool. now rewrite E. }
      rewrite Forall_forall in *. intros k Hk.
      apply (Permutation_in _ (insert_index_perm i t)) in Hk.
      destruct Hk as [<-|Hk]; [exact Hji | now apply Hj].
Qed.

Lemma argsort_nat_perm : Permutation (np.argsort_nat a) (seq 0 (length a)).
Proof.
  unfold np.argsort_nat. induction (seq 0 (length a)) as [|i t IH]; simpl.
  - reflexivity.
  - rewrite insert_index_perm. now constructor.
Qed.

Lemma argsort_nat_sorted : StronglySorted (key_le a) (np.argsort_nat a).
Proof.
  unfold np.argsort_nat. induction (seq 0 (length a)) as [|i t IH]; simpl.
  - constructor.
  - now apply insert_index_sorted.
Qed.

Lemma argsort_nat_keys_sorted :
  StronglySorted Qle (map (fun i => nth i a 0) (np.argsort_nat a)).
Proof.
  induction argsort_nat_sorted as [|i t Hs IH Hi]; simpl; constructor.
  - exact IH.
  - rewrite Forall_forall in *. intros x Hx.
    apply in_map_iff in Hx. destruct Hx as (j & <- & Hj). now apply Hi.
Qed.

Lemma argsort_nat_bound (n : nat) :
  n = length a -> Forall (fun i => (i < n)%nat) (np.argsort_nat a).
Proof.
  intros ->. apply Forall_forall. intros i Hi.
  apply (Permutation_in _ argsort_nat_perm) in Hi.
  apply in_seq in Hi. lia.
Qed.

End Argsort.

(** ** Lines 56-70 deliver sorted samples with their weights *)

Lemma filter_permutation {A : Type} (f : A -> bool) (l l' : list A) :
  Permutation l l' -> Permutation (filter f l) (filter f l').
Proof.
  induction 1 as [|x l l' H IH|x y l|l l' l'' H1 IH1 H2 IH2]; simpl.
  - constructor.
  - destruct (f x); [now constructor | exact IH].
  - destruct (f x), (f y); try reflexivity. apply perm_swap.
  - now transitivity (filter f l').
Qed.

Lemma map_fst_combine {A B : Type} (l1 : list A) (l2 : list B) :
  length l1 = length l2 -> map fst (combine l1 l2) = l1.
Proof.
  revert l2. induction l1 as [|x l1 IH]; intros [|y l2] H; simpl in *;
    try reflexivity; try discriminate.
  f_equal. apply IH. lia.
Qed.

Lemma map_snd_combine {A B : Type} (l1 : list A) (l2 : list B) :
  length l1 = length l2 -> map snd (combine l1 l2) = l2.
Proof.
  revert l2. induction l1 as [|x l1 IH]; intros [|y l2] H; simpl in *;
    try reflexivity; try discriminate.
  f_equal. apply IH. lia.
Qed.

Lemma prepare_no_sorter (a weights : list Q) :
  length a = length weights ->
  exists sa sw, prepare a weights None = Ok (sa, sw) /\ prepared a weights sa sw.
Proof.
  intro Hlen. unfold prepare. cbn [bind fst snd].
  fold nonzero.
  set (a1 := np.compress (map nonzero weights) a).
  set (w1 := np.compress (map nonzero weights) weights).
  assert (Hlen1 : length a1 = length w1) by now apply compress_length.
  unfold np.argsort.
  rewrite (take_nat a1 _ 0) by now apply argsort_nat_bound.
  rewrite (take_nat w1 _ 0) by now apply argsort_nat_bound.
  cbn [bind]. eexists. eexists. split; [reflexivity|].
  split; [now rewrite !length_map|].
  split; [apply argsort_nat_keys_sorted|].
  rewrite gather_combine by assumption.
  unfold nonzero_pairs. rewrite <- compress_combine by assumption.
  fold a1 w1. apply gather_permutation.
  rewrite length_combine, <- Hlen1, Nat.min_id. apply argsort_nat_perm.
Qed.

Lemma sorter_in_bounds (n : nat) (s : list Z) :
  Permutation s (map Z.of_nat (seq 0 n)) ->
  Forall (fun i => (0 <= i < Z.of_nat n)%Z) s.
Proof.
  intro H. apply Forall_forall. intros i Hi.
  apply (Permutation_in _ H) in Hi.
  apply in_map_iff in Hi. destruct Hi as (k & <- & Hk).
  apply in_seq in Hk. lia.
Qed.

Lemma gather_permutation_Z {A : Type} (l : list A) (s : list Z) (d : A) :
  Permutation s (map Z.of_nat (seq 0 (length l))) ->
  Permutation (map (fun i => nth (Z.to_nat i) l d) s) l.
Proof.
  intro H.
  apply Permutation_trans
    with (map (fun i => nth (Z.to_nat i) l d) (map Z.of_nat (seq 0 (length l)))).
  - now apply Permutation_map.
  - rewrite map_map.
    rewrite (map_ext _ (fun i => nth i l d)) by (intro; now rewrite Nat2Z.id).
    now rewrite map_nth_seq.
Qed.

Lemma prepare_sorter (a weights : list Q) (s : list Z) :
  length a = length weights ->
  valid_sorter a (Some s) ->
  exists sa sw,
    prepare a weights (Some s) = Ok (sa, sw) /\ prepared a weights sa sw.
Proof.
  intros Hlen [Hperm Hasc]. unfold prepare.
  pose proof (sorter_in_bounds _ _ Hperm) as Hb.
  rewrite (take_Z a s 0) by exact Hb.
  rewrite (take_Z weights s 0) by (now rewrite <- Hlen).
  cbn [bind fst snd]. fold nonzero.
  set (a' := map (fun i => nth (Z.to_nat i) a 0) s) in *.
  set (w' := map (fun i => nth (Z.to_nat i) weights 0) s).
  assert (Hlen' : length a' = length w') by (unfold a', w'; now rewrite !length_map).
  eexists. eexists. split; [reflexivity|].
  split; [now apply compress_length|].
  split; [now apply StronglySorted_compress, ascending_StronglySorted|].
  rewrite compress_combine by assumption.
  apply filter_permutation.
  unfold a', w'.
  rewrite <- (map_map Z.to_nat (fun i => nth i a 0)).
  rewrite <- (map_map Z.to_nat (fun i => nth i weights 0)).
  rewrite gather_combine by assumption.
  rewrite map_map. apply gather_permutation_Z.
  now rewrite length_combine, <- Hlen, Nat.min_id.
Qed.

(** [prepare] raises nothing but [IndexError]. *)
Lemma prepare_raises a weights sorter e :
  prepare a weights sorter = Raise e -> e = IndexError.
Proof.
  unfold prepare. destruct sorter as [s|].
  - destruct (np.take a s) eqn:Ea; cbn [bind].
    + destruct (np.take weights s) eqn:Ew; cbn [bind]; [discriminate|].
      intro H. apply (take_raises weights s). congruence.
    + intro H. apply (take_raises a s). congruence.
  - cbn [bind fst snd].
    match goal with |- context [np.take ?l ?i] =>
      destruct (np.take l i) eqn:Ea end; cbn [bind].
    + match goal with |- context [np.take ?l ?i] =>
        destruct (np.take l i) eqn:Ew end; cbn [bind]; [discriminate|].
      intro H. eapply take_raises. rewrite Ew. f_equal. congruence.
    + intro H. eapply take_raises. rewrite Ea. f_equal. congruence.
Qed.

(** Consequences of [prepared]. *)
Lemma prepared_samples a weights sa sw :
  length a = length weights ->
  prepared a weights sa sw ->
  Permutation sa (nonzero_samples a weights).
Proof.
  intros Hlen (Hl & _ & Hp).
  rewrite <- (map_fst_combine sa sw Hl).
  unfold nonzero_samples.
  rewrite <- (map_fst_combine (np.compress (map nonzero weights) a)
                              (np.compress (map nonzero weights) weights))
    by now apply compress_length.
  rewrite compress_combine by assumption.
  now apply Permutation_map.
Qed.

Lemma prepared_weights a weights sa sw :
  length a = length weights ->
  prepared a weights sa sw ->
  Permutation sw (np.compress (map nonzero weights) weights).
Proof.
  intros Hlen (Hl & _ & Hp).
  rewrite <- (map_snd_combine sa sw Hl).
  rewrite <- (map_snd_combine (np.compress (map nonzero weights) a)
                              (np.compress (map nonzero weights) weights))
    by now apply compress_length.
  rewrite compress_combine by assumption.
  now apply Permutation_map.
Qed.

(** ** [np.searchsorted] brackets the key *)

Lemma bisect_left_spec (arr : list Q) (key : Q) (fuel lo hi : nat) :
  (hi - lo <= fuel)%nat ->
  (lo <= hi <= length arr)%nat ->
  (forall k, S k = lo -> nth k arr 0 < key) ->
  ((hi < length arr)%nat -> key <= nth hi arr 0) ->
  let r := np.bisect_left fuel arr key lo hi in
  (lo <= r <= hi)%nat /\
  (forall k, S k = r -> nth k arr 0 < key) /\
  ((r < length arr)%nat -> key <= nth r arr 0).
Proof.
  revert lo hi.
  induction fuel as [|fuel IH]; intros lo hi Hfuel Hb Hlo Hhi;
    cbn [np.bisect_left].
  - assert (lo = hi) by lia. subst hi. repeat split; auto; lia.
  - destruct (Nat.ltb_spec lo hi) as [Hlt|Hge].
    + set (mid := (lo + (hi - lo) / 2)%nat).
      assert (Hmid : (lo <= mid < hi)%nat).
      { unfold mid. split; [lia|].
        assert ((hi - lo) / 2 < hi - lo)%nat by (apply Nat.div_lt; lia). lia. }
      destruct (Qlt_bool (nth mid arr 0) key) eqn:E.
      * apply Qlt_bool_iff in E.
        destruct (IH (S mid) hi) as (H1 & H2 & H3); try lia; auto.
        { intros k Hk. injection Hk as ->. exact E. }
        split; [lia | split; assumption].
      * apply Qlt_bool_false_iff in E.
        destruct (IH lo mid) as (H1 & H2 & H3); try lia; auto.
        split; [lia | split; assumption].
    + assert (lo = hi) by lia. subst hi. repeat split; auto; lia.
Qed.

Lemma searchsorted_spec (arr : list Q) (key : Q) :
  let r := np.searchsorted arr key in
  (r <= length arr)%nat /\
  (forall k, S k = r -> nth k arr 0 < key) /\
  ((r < length arr)%nat -> key <= nth r arr 0).
Proof.
  unfold np.searchsorted.
  destruct (bisect_left_spec arr key (length arr) 0 (length arr))
    as (H1 & H2 & H3); try lia.
  split; [lia | split; assumption].
Qed.

(** ** Cumulative weights and positions *)




Lemma Qhalf (x : Q) : x / 2 == x * (1 # 2).
Proof. field. Qed.

(** ** Lines 78-88, rank by rank *)

Lemma compress_map_Forall {A B : Type} (f : A -> B) (g : B -> bool)
    (P : B -> Prop) (l : list A) :
  (forall x, In x l -> g (f x) = true -> P (f x)) ->
  Forall P (np.compress (map g (map f l)) (map f l)).
Proof.
  induction l as [|x l IH]; intro H; simpl; [constructor|].
  assert (Ht : Forall P (np.compress (map g (map f l)) (map f l)))
    by (apply IH; intros; apply H; simpl; auto).
  destruct (g (f x)) eqn:E; [|exact Ht].
  constructor; [apply H; simpl; auto | exact Ht].
Qed.

Section Interpolate.

Variables sorted_a sorted_cum_weights partial_sum : list Q.
Hypothesis a_length : length sorted_a = length partial_sum.
Hypothesis cum_length : length sorted_cum_weights = length partial_sum.
Hypothesis a_nonempty : sorted_a <> [].

Let n : Z := Z.of_nat (length sorted_cum_weights).
Let start_of (x : Q) : Z := (Z.of_nat (np.searchsorted partial_sum x) - 1)%Z.
Let is_valid (s : Z) : bool := negb (s =? n - 1)%Z && negb (s =? -1)%Z.

Lemma start_valid_bounds (x : Q) :
  is_valid (start_of x) = true ->
  (0 <= start_of x /\ start_of x + 1 < Z.of_nat (length partial_sum))%Z.
Proof.
  unfold is_valid, start_of, n. rewrite cum_length.
  destruct (searchsorted_spec partial_sum x) as (Hr & _).
  intro H. apply andb_true_iff in H. destruct H as [H1 H2].
  apply negb_true_iff, Z.eqb_neq in H1, H2. lia.
Qed.


Lemma masked_assignments (al af : Q) (f : Q -> Q) (q : list Q) :
  np.putmask_seq
    (np.putmask
       (np.putmask (np.zeros (length q))
                   (map (fun x => (start_of x =? n - 1)%Z) q) al)
       (map (fun x => (start_of x =? -1)%Z) q) af)
    (map is_valid (map start_of q))
    (map f (np.compress (map is_valid (map start_of q)) q)) =
  map (fun x =>
         if is_valid (start_of x) then f x
         else if (start_of x =? -1)%Z then af
         else if (start_of x =? n - 1)%Z then al
         else 0) q.
Proof.
  induction q as [|x q IH]; [reflexivity|].
  cbn [length np.zeros repeat map np.putmask np.putmask_seq np.compress].
  fold (np.zeros (length q)).
  destruct (is_valid (start_of x)); cbn [map]; rewrite IH; reflexivity.
Qed.

Lemma compress_map {A B : Type} (g : A -> B) (m : list bool) (l : list A) :
  np.compress m (map g l) = map g (np.compress m l).
Proof.
  revert l. induction m as [|b m IH]; intros [|x l]; simpl; try reflexivity.
  destruct b; simpl; now rewrite IH.
Qed.

Lemma map2_map {A B C D : Type} (h : B -> C -> D) (f : A -> B) (g : A -> C)
    (l : list A) :
  np.map2 h (map f l) (map g l) = map (fun x => h (f x) (g x)) l.
Proof.
  induction l as [|x l IH]; simpl; [reflexivity|]. now rewrite IH.
Qed.

Lemma map2_map_l {A C D : Type} (h : A -> C -> D) (g : A -> C) (l : list A) :
  np.map2 h l (map g l) = map (fun x => h x (g x)) l.
Proof.
  induction l as [|x l IH]; simpl; [reflexivity|]. now rewrite IH.
Qed.


End Interpolate.

(** ** Lines 72-88 on sorted samples *)

Lemma percentiles_of_sorted_nil (sa q : list Q) :
  percentiles_of_sorted sa [] q = Raise IndexError.
Proof. reflexivity. Qed.



(** ** The function on validated input *)

Lemma prepare_lengths a weights sorter sa sw :
  length a = length weights ->
  prepare a weights sorter = Ok (sa, sw) -> length sa = length sw.
Proof.
  intro Hlen. unfold prepare. destruct sorter as [s|].
  - destruct (np.take a s) as [a'|] eqn:Ea; cbn [bind]; [|discriminate].
    destruct (np.take weights s) as [w'|] eqn:Ew; cbn [bind fst snd]; [|discriminate].
    intro H. inversion H. apply compress_length.
    apply take_length in Ea, Ew. congruence.
  - cbn [bind fst snd].
    match goal with |- context [np.take ?l ?i] =>
      destruct (np.take l i) as [sa'|] eqn:Ea end; cbn [bind]; [|discriminate].
    match goal with |- context [np.take ?l ?i] =>
      destruct (np.take l i) as [sw'|] eqn:Ew end; cbn [bind]; [|discriminate].
    intro H. inversion H. subst.
    apply take_length in Ea, Ew. congruence.
Qed.


Lemma effective_weights_In (w : list Q) (x : Q) :
  In x w -> nonzero x = true -> In x (effective_weights w).
Proof.
  unfold effective_weights. induction w as [|y w IH]; simpl; [tauto|].
  intros [->|Hin] Hx.
  - rewrite Hx. now left.
  - destruct (nonzero y); [right|]; now apply IH.
Qed.

Lemma effective_weights_nonempty (w : list Q) :
  Exists (fun x => 0 < x) w -> effective_weights w <> [].
Proof.
  intro H. apply Exists_exists in H. destruct H as (x & Hx & Hpos).
  assert (Hin : In x (effective_weights w)).
  { apply effective_weights_In; [assumption|].
    apply nonzero_true_iff. intro E. rewrite E in Hpos.
    now apply Qlt_irrefl in Hpos. }
  intro E. now rewrite E in Hin.
Qed.

(** The first and the last sorted sample are the extreme samples of
    non-zero weight. *)
Lemma first_sorted_is_minimum a w sa sw :
  length a = length w -> prepared a w sa sw -> sa <> [] ->
  is_minimum (nth 0 sa 0) (nonzero_samples a w).
Proof.
  intros Hlen Hprep Hne.
  pose proof (prepared_samples a w sa sw Hlen Hprep) as Hperm.
  destruct Hprep as (_ & Hsorted & _).
  apply ascending_StronglySorted in Hsorted.
  assert (Hn : (0 < length sa)%nat) by (destruct sa; [congruence | simpl; lia]).
  split.
  - apply (Permutation_in _ Hperm), nth_In, Hn.
  - intros x Hx. apply (Permutation_in _ (Permutation_sym Hperm)) in Hx.
    destruct (In_nth sa x 0 Hx) as (j & Hj & <-). apply Hsorted. lia.
Qed.

Lemma last_sorted_is_maximum a w sa sw :
  length a = length w -> prepared a w sa sw -> sa <> [] ->
  is_maximum (nth (length sa - 1) sa 0) (nonzero_samples a w).
Proof.
  intros Hlen Hprep Hne.
  pose proof (prepared_samples a w sa sw Hlen Hprep) as Hperm.
  destruct Hprep as (_ & Hsorted & _).
  apply ascending_StronglySorted in Hsorted.
  assert (Hn : (0 < length sa)%nat) by (destruct sa; [congruence | simpl; lia]).
  split.
  - apply (Permutation_in _ Hperm), nth_In. lia.
  - intros x Hx. apply (Permutation_in _ (Permutation_sym Hperm)) in Hx.
    destruct (In_nth sa x 0 Hx) as (j & Hj & <-). apply Hsorted. lia.
Qed.

(** * Properties that do not depend on the arithmetic *)

(** ** A sample of weight zero *)

Lemma insert_at_length {A : Type} (i : nat) (x : A) (l : list A) :
  length (insert_at i x l) = S (length l).
Proof.
  unfold insert_at. rewrite length_app. cbn [length].
  rewrite <- (firstn_skipn i l) at 3. rewrite length_app. lia.
Qed.

Lemma compress_insert_zero (i : nat) (x z : Q) (w l : list Q) :
  nonzero z = false -> length l = length w ->
  np.compress (map nonzero (insert_at i z w)) (insert_at i x l) =
  np.compress (map nonzero w) l.
Proof.
  intros Hz Hl. unfold insert_at.
  rewrite map_app, compress_app
    by (rewrite length_map, !length_firstn; lia).
  cbn [map np.compress]. rewrite Hz.
  rewrite <- compress_app by (rewrite length_map, !length_firstn; lia).
  now rewrite <- map_app, !firstn_skipn.
Qed.

Lemma compress_insert_zero_weights (i : nat) (z : Q) (w : list Q) :
  nonzero z = false ->
  np.compress (map nonzero (insert_at i z w)) (insert_at i z w) =
  np.compress (map nonzero w) w.
Proof.
  intro Hz. now apply compress_insert_zero.
Qed.

Lemma prepare_insert_zero (i : nat) (x z : Q) (a w : list Q) :
  length a = length w -> z == 0 ->
  prepare (insert_at i x a) (insert_at i z w) None = prepare a w None.
Proof.
  intros Hlen Hz. apply nonzero_false_iff in Hz.
  unfold prepare. cbn [bind fst snd]. fold nonzero.
  rewrite (compress_insert_zero i x z w a Hz Hlen).
  now rewrite (compress_insert_zero_weights i z w Hz).
Qed.

(** C4. Inserting, at any position, a sample whose weight is zero changes
    nothing in the result (no sorter supplied). *)
Theorem zero_weight_sample_is_ignored (a w : list Q) (q : rank_arg)
    (i : nat) (x z : Q) :
  z == 0 ->
  weighted_percentile (insert_at i x a) q (Some (insert_at i z w)) None =
  weighted_percentile a q (Some w) None.
Proof.
  intro Hz. unfold weighted_percentile. cbn [default_weights].
  rewrite !insert_at_length. cbn [Nat.eqb].
  destruct (np.amax (np.flatten q)) as [q_max|]; [|reflexivity].
  destruct (np.amin (np.flatten q)) as [q_min|]; [|reflexivity].
  cbn [bind]. destruct (_ || _); [reflexivity|].
  destruct (Nat.eqb_spec (length a) (length w)) as [Hlen|Hne]; [|reflexivity].
  cbn [negb]. now rewrite prepare_insert_zero.
Qed.

Lemma zero_weight_sample_is_ignored_witness :
  weighted_percentile (insert_at 1 7 [10; 20]) (QScalar 50)
                      (Some (insert_at 1 0 [3; 1])) None =
  weighted_percentile [10; 20] (QScalar 50) (Some [3; 1]) None.
Proof.
  apply (zero_weight_sample_is_ignored [10; 20] [3; 1] (QScalar 50) 1 7 0).
  reflexivity.
Defined.

(** ** Validation *)




(** ** No sample of non-zero weight *)

Lemma compress_all_zero {A : Type} (w : list Q) (l : list A) :
  Forall (fun x => x == 0) w -> np.compress (map nonzero w) l = [].
Proof.
  intro H. revert l. induction H as [|x w Hx Hw IH]; intros [|y l]; simpl;
    try reflexivity.
  apply nonzero_false_iff in Hx. rewrite Hx. apply IH.
Qed.

Lemma take_Forall {A : Type} (P : A -> Prop) (l : list A) (idx : list Z)
    (r : list A) :
  Forall P l -> np.take l idx = Ok r -> Forall P r.
Proof.
  intro Hl. revert r. induction idx as [|i t IH]; simpl; intros r H.
  - inversion H. constructor.
  - destruct (np.getitem l i) as [x|] eqn:Ex; cbn [bind] in H; [|discriminate].
    destruct (np.take l t) as [r'|] eqn:Et; cbn [bind] in H; [|discriminate].
    inversion H. subst. constructor; [|now apply IH].
    unfold np.getitem in Ex. destruct (_ || _); [discriminate|].
    destruct (nth_error l _) eqn:En; [|discriminate].
    inversion Ex. subst. rewrite Forall_forall in Hl.
    eapply Hl, nth_error_In, En.
Qed.

(** C8, as the code has it: when every weight is zero (or there is no
    sample at all), validated input makes line 74 read the last entry of an
    empty array, which raises [IndexError]. *)
Theorem no_positive_weight_raises_index_error (a : list Q) (q : rank_arg)
    (weights : option (list Q)) (sorter : option (list Z)) :
  valid_ranks q ->
  length a = length (default_weights a weights) ->
  Forall (fun x => x == 0) (default_weights a weights) ->
  weighted_percentile a q weights sorter = Raise IndexError.
Proof.
  intros Hq Hlen Hz. rewrite wp_validated by assumption.
  destruct (prepare a (default_weights a weights) sorter) as [[sa sw]|e] eqn:Ep.
  - cbn [bind fst snd].
    assert (Hsw : sw = []).
    { unfold prepare in Ep. destruct sorter as [s|].
      - destruct (np.take a s) as [a'|]; cbn [bind] in Ep; [|discriminate].
        destruct (np.take (default_weights a weights) s) as [w'|] eqn:Ew;
          cbn [bind fst snd] in Ep; [|discriminate].
        inversion Ep. fold nonzero. apply compress_all_zero.
        eapply take_Forall; eassumption.
      - cbn [bind fst snd] in Ep. fold nonzero in Ep.
        rewrite !compress_all_zero in Ep by assumption.
        vm_compute in Ep. now inversion Ep. }
    subst sw. apply percentiles_of_sorted_nil.
  - cbn [bind]. f_equal. eapply prepare_raises; eassumption.
Qed.

Lemma no_positive_weight_raises_index_error_witness :
  weighted_percentile [1; 2] (QScalar 50) (Some [0; 0]) None =
  Raise IndexError.
Proof.
  apply (no_positive_weight_raises_index_error [1; 2] (QScalar 50) (Some [0; 0]) None).
  - split; [discriminate|]. repeat constructor; discriminate.
  - reflexivity.
  - repeat constructor.
Defined.

(** C8 as stated fails: the error for all-zero weights is no
    [ValueError]. *)
Lemma all_zero_weights_raise_no_value_error :
  ~ exists msg,
      weighted_percentile [1; 2] (QScalar 50) (Some [0; 0]) None =
      Raise (ValueError msg).
Proof.
  intros (msg & H). vm_compute in H. discriminate.
Qed.

(** ** A weighted example *)

(** C9. Samples [10, 20] with weights [3, 1]: the median is 12.5, below
    the midpoint 15. *)
Theorem skewed_median_example :
  exists v,
    weighted_percentile [10; 20] (QScalar 50) (Some [3; 1]) None = Ok [v] /\
    v == 25 # 2 /\ v < 15.
Proof.
  eexists. split; [vm_compute; reflexivity|].
  split; reflexivity.
Qed.

(** ** The sorted arrangement of the samples *)

Lemma combine_sorted (sa sw : list Q) :
  StronglySorted Qle sa -> StronglySorted sample_le (combine sa sw).
Proof.
  intro H. revert sw. induction H as [|x sa Hs IH Hx]; intros [|y sw]; simpl;
    try constructor.
  - apply IH.
  - rewrite Forall_forall in *. intros [u v] Huv.
    apply in_combine_l in Huv. unfold sample_le. simpl. now apply Hx.
Qed.

(** Two sorted arrangements of the same pairs are equal when pairs with
    equal samples are equal. *)
Lemma sorted_arrangement_unique (l1 l2 : list (Q * Q)) :
  StronglySorted sample_le l1 -> StronglySorted sample_le l2 ->
  Permutation l1 l2 ->
  (forall p r, In p l1 -> In r l1 -> fst p == fst r -> p = r) ->
  l1 = l2.
Proof.
  intro H1. revert l2.
  induction H1 as [|x t1 Hs1 IH Hx]; intros l2 H2 Hperm Hties.
  - apply Permutation_nil in Hperm. now subst.
  - destruct l2 as [|y t2];
      [apply Permutation_sym, Permutation_nil in Hperm; discriminate|].
    inversion H2 as [|? ? Hs2 Hy]; subst.
    assert (Hxy : x = y).
    { assert (Hxin : In x (y :: t2))
        by (apply (Permutation_in _ Hperm); now left).
      assert (Hyin : In y (x :: t1))
        by (apply (Permutation_in _ (Permutation_sym Hperm)); now left).
      apply Hties; [now left | exact Hyin |].
      rewrite Forall_forall in Hx, Hy.
      apply Qle_antisym.
      - destruct Hyin as [<-|Hyin]; [apply Qle_refl | now apply Hx].
      - destruct Hxin as [<-|Hxin]; [apply Qle_refl | now apply Hy]. }
    subst y. f_equal. apply IH.
    + exact Hs2.
    + now apply Permutation_cons_inv in Hperm.
    + intros p r Hp Hr. apply Hties; now right.
Qed.

Lemma combine_eq_inv {A B : Type} (l1 l1' : list A) (l2 l2' : list B) :
  length l1 = length l2 -> length l1' = length l2' ->
  combine l1 l2 = combine l1' l2' -> l1 = l1' /\ l2 = l2'.
Proof.
  intros H H' E. split.
  - rewrite <- (map_fst_combine l1 l2 H), <- (map_fst_combine l1' l2' H').
    now rewrite E.
  - rewrite <- (map_snd_combine l1 l2 H), <- (map_snd_combine l1' l2' H').
    now rewrite E.
Qed.

Lemma prepared_unique a w sa1 sw1 sa2 sw2 :
  length a = length w -> ties_identical a w ->
  prepared a w sa1 sw1 -> prepared a w sa2 sw2 ->
  sa1 = sa2 /\ sw1 = sw2.
Proof.
  intros Hlen Hties (Hl1 & Hs1 & Hp1) (Hl2 & Hs2 & Hp2).
  apply combine_eq_inv; try assumption.
  apply sorted_arrangement_unique.
  - now apply combine_sorted.
  - now apply combine_sorted.
  - now rewrite Hp1, Hp2.
  - assert (Hidx : forall p, In p (combine sa1 sw1) ->
              exists i, (i < length a)%nat /\ p = (nth i a 0, nth i w 0)).
    { intros p Hp. apply (Permutation_in _ Hp1) in Hp.
      unfold nonzero_pairs in Hp. apply filter_In in Hp. destruct Hp as [Hp _].
      destruct (In_nth _ _ (0, 0) Hp) as (i & Hi & E).
      rewrite length_combine, <- Hlen, Nat.min_id in Hi.
      exists i. split; [exact Hi|]. now rewrite <- E, combine_nth. }
    intros p r Hp Hr E.
    destruct (Hidx p Hp) as (i & Hi & ->), (Hidx r Hr) as (j & Hj & ->).
    simpl in E. destruct (Hties i j Hi Hj E) as [-> ->]. reflexivity.
Qed.

(** ** A sorter that is no permutation *)

Lemma getitem_out_of_bounds {A : Type} (l : list A) (i : Z) :
  (i < - Z.of_nat (length l) \/ Z.of_nat (length l) <= i)%Z ->
  np.getitem l i = Raise IndexError.
Proof.
  intro H. unfold np.getitem.
  destruct (Z.ltb_spec i 0) as [Hneg|Hpos].
  - destruct (Z.ltb_spec (i + Z.of_nat (length l)) 0) as [_|Hge]; [reflexivity|].
    destruct (Z.leb_spec (Z.of_nat (length l)) (i + Z.of_nat (length l)))
      as [_|Hlt]; [reflexivity | lia].
  - destruct (Z.ltb_spec i 0) as [Hneg|_]; [lia|].
    destruct (Z.leb_spec (Z.of_nat (length l)) i) as [_|Hlt]; [reflexivity | lia].
Qed.

Lemma take_out_of_bounds {A : Type} (l : list A) (idx : list Z) :
  Exists (fun i => (i < - Z.of_nat (length l) \/ Z.of_nat (length l) <= i)%Z) idx ->
  np.take l idx = Raise IndexError.
Proof.
  induction 1 as [i t Hi|i t Ht IH]; simpl.
  - now rewrite getitem_out_of_bounds.
  - destruct (np.getitem l i) as [x|e] eqn:E; cbn [bind].
    + now rewrite IH.
    + f_equal. now apply (getitem_raises l i).
Qed.

(** X4. A sorter with an index outside [-n, n), [n] the number of
    samples, makes a call that passes validation raise [IndexError]. *)
Theorem sorter_out_of_bounds_raises (a : list Q) (q : rank_arg)
    (weights : option (list Q)) (s : list Z) :
  valid_ranks q ->
  length a = length (default_weights a weights) ->
  Exists (fun i => (i < - Z.of_nat (length a) \/ Z.of_nat (length a) <= i)%Z) s ->
  weighted_percentile a q weights (Some s) = Raise IndexError.
Proof.
  intros Hq Hlen Hs. rewrite wp_validated by assumption.
  unfold prepare. now rewrite take_out_of_bounds.
Qed.

Lemma sorter_out_of_bounds_raises_witness :
  weighted_percentile [1; 2; 3] (QScalar 50) None (Some [0; 1; 3]%Z) =
  Raise IndexError.
Proof.
  apply (sorter_out_of_bounds_raises [1; 2; 3] (QScalar 50) None [0; 1; 3]%Z).
  - split; [discriminate|]. repeat constructor; discriminate.
  - reflexivity.
  - apply Exists_cons_tl, Exists_cons_tl, Exists_cons_hd. right. simpl. lia.
Defined.

(** ** [np.argsort] is a valid sorter *)

Lemma argsort_valid_sorter (a : list Q) : valid_sorter a (Some (np.argsort a)).
Proof.
  unfold valid_sorter, np.argsort. split.
  - apply Permutation_map, argsort_nat_perm.
  - rewrite map_map.
    rewrite (map_ext _ (fun i => nth i a 0)) by (intro; now rewrite Nat2Z.id).
    apply ascending_StronglySorted, argsort_nat_keys_sorted.
Qed.

(** * Rounding *)

(** ** Powers of two *)

Lemma pow2_pos (e : Z) : 0 < pow2 e.
Proof. apply Qpower_0_lt. reflexivity. Qed.

Lemma pow2_add (a b : Z) : pow2 (a + b) == pow2 a * pow2 b.
Proof. apply Qpower_plus. discriminate. Qed.

Lemma pow2_le (a b : Z) : (a <= b)%Z -> pow2 a <= pow2 b.
Proof. intros H. apply Qpower_le_compat_l; [exact H | discriminate]. Qed.

Lemma pow2_lt_inv (a b : Z) : pow2 a < pow2 b -> (a < b)%Z.
Proof. intros H. apply (Qpower_lt_compat_l_inv 2); [exact H | reflexivity]. Qed.

Lemma pow2_Z (n : Z) : (0 <= n)%Z -> pow2 n == inject_Z (2 ^ n).
Proof. intros H. symmetry. apply (Zpower_Qpower 2 n H). Qed.

Lemma pow2_split (a b : Z) : (b <= a)%Z -> pow2 a == inject_Z (2 ^ (a - b)) * pow2 b.
Proof.
  intros H. rewrite <- pow2_Z by lia. rewrite <- pow2_add.
  replace (a - b + b)%Z with a by lia. reflexivity.
Qed.

(** ** The binary logarithm *)

Lemma Q_as_quotient (x : Q) : x * inject_Z (Zpos (Qden x)) == inject_Z (Qnum x).
Proof.
  destruct x as [n d]. unfold Qeq, Qmult, inject_Z. simpl. lia.
Qed.

Lemma ilog2_spec (x : Q) :
  0 < x -> pow2 (ilog2 x) <= x /\ x < pow2 (ilog2 x + 1).
Proof.
  intros Hx.
  assert (Hn : (0 < Qnum x)%Z).
  { destruct x as [n d]. unfold Qlt in Hx. simpl in *. lia. }
  pose proof (Q_as_quotient x) as Hq.
  set (a := Z.log2 (Qnum x)) in *.
  set (b := Z.log2 (Zpos (Qden x))) in *.
  destruct (Z.log2_spec (Qnum x) Hn) as [Ha1 Ha2]. fold a in Ha1, Ha2.
  destruct (Z.log2_spec (Zpos (Qden x)) (eq_refl)) as [Hb1 Hb2]. fold b in Hb1, Hb2.
  assert (Ha0 : (0 <= a)%Z) by apply Z.log2_nonneg.
  assert (Hb0 : (0 <= b)%Z) by apply Z.log2_nonneg.
  assert (Hd : 0 < inject_Z (Zpos (Qden x))) by reflexivity.
  assert (HA1 : pow2 a <= inject_Z (Qnum x)).
  { rewrite pow2_Z by lia. rewrite <- Zle_Qle. exact Ha1. }
  assert (HA2 : inject_Z (Qnum x) < pow2 (a + 1)).
  { rewrite pow2_Z by lia. rewrite <- Zlt_Qlt. replace (a + 1)%Z with (Z.succ a) by lia. exact Ha2. }
  assert (HB1 : pow2 b <= inject_Z (Zpos (Qden x))).
  { rewrite pow2_Z by lia. rewrite <- Zle_Qle. exact Hb1. }
  assert (HB2 : inject_Z (Zpos (Qden x)) < pow2 (b + 1)).
  { rewrite pow2_Z by lia. rewrite <- Zlt_Qlt. replace (b + 1)%Z with (Z.succ b) by lia. exact Hb2. }
  assert (Hlow : pow2 (a - b - 1) <= x).
  { assert (E : pow2 (a - b - 1) * pow2 (b + 1) == pow2 a).
    { rewrite <- pow2_add. replace (a - b - 1 + (b + 1))%Z with a by lia. reflexivity. }
    pose proof (pow2_pos (a - b - 1)) as HP.
    generalize dependent (pow2 (a - b - 1)). generalize dependent (pow2 (b + 1)).
    generalize dependent (pow2 a). generalize dependent (pow2 (a + 1)). generalize dependent (pow2 b).
    generalize dependent (inject_Z (Qnum x)). generalize dependent (inject_Z (Zpos (Qden x))).
    intros. nra. }
  assert (Hhigh : x < pow2 (a - b + 1)).
  { assert (E : pow2 (a - b + 1) * pow2 b == pow2 (a + 1)).
    { rewrite <- pow2_add. replace (a - b + 1 + b)%Z with (a + 1)%Z by lia. reflexivity. }
    pose proof (pow2_pos (a - b + 1)) as HP.
    generalize dependent (pow2 (a - b + 1)). generalize dependent (pow2 (b + 1)).
    generalize dependent (pow2 a). generalize dependent (pow2 (a + 1)). generalize dependent (pow2 b).
    generalize dependent (inject_Z (Qnum x)). generalize dependent (inject_Z (Zpos (Qden x))).
    intros. nra. }
  unfold ilog2. fold a b.
  destruct (Qle_bool (pow2 (a - b)) x) eqn:E.
  - split; [apply Qle_bool_iff; exact E | exact Hhigh].
  - split; [exact Hlow |].
    replace (a - b - 1 + 1)%Z with (a - b)%Z by lia.
    apply Qnot_le_lt. intros H. apply Qle_bool_iff in H. congruence.
Qed.

Lemma ilog2_unique (x : Q) (l : Z) :
  pow2 l <= x -> x < pow2 (l + 1) -> ilog2 x = l.
Proof.
  intros H1 H2.
  assert (Hx : 0 < x) by (pose proof (pow2_pos l); lra).
  destruct (ilog2_spec x Hx) as [H3 H4].
  assert (l < ilog2 x + 1)%Z by (apply pow2_lt_inv; lra).
  assert (ilog2 x < l + 1)%Z by (apply pow2_lt_inv; lra).
  lia.
Qed.

Lemma ilog2_mono (x y : Q) : 0 < x -> x <= y -> (ilog2 x <= ilog2 y)%Z.
Proof.
  intros Hx Hxy.
  destruct (ilog2_spec x Hx) as [H1 H2].
  destruct (ilog2_spec y) as [H3 H4]; [lra |].
  assert (ilog2 x < ilog2 y + 1)%Z by (apply pow2_lt_inv; lra).
  lia.
Qed.

Lemma ilog2_proper (x y : Q) : 0 < x -> x == y -> ilog2 x = ilog2 y.
Proof.
  intros Hx E. symmetry.
  destruct (ilog2_spec x Hx) as [H1 H2].
  apply ilog2_unique; rewrite <- E; assumption.
Qed.

Lemma ilog2_below (x : Q) (l : Z) : 0 < x -> x < pow2 l -> (ilog2 x < l)%Z.
Proof.
  intros Hx H. destruct (ilog2_spec x Hx) as [H1 _].
  apply pow2_lt_inv. lra.
Qed.

(** ** Rounding to the nearest integer *)

Lemma rne_Z (n : Z) : rne (inject_Z n) = n.
Proof.
  unfold rne. rewrite Qfloor_Z.
  assert (E : Qcompare (inject_Z n - inject_Z n) (1 # 2) = Lt).
  { rewrite <- Qlt_alt. lra. }
  rewrite E. reflexivity.
Qed.

Lemma rne_proper (x y : Q) : x == y -> rne x = rne y.
Proof.
  intros E. unfold rne. rewrite (Qfloor_comp _ _ E).
  assert (E' : Qcompare (x - inject_Z (Qfloor y)) (1 # 2) = Qcompare (y - inject_Z (Qfloor y)) (1 # 2)).
  { apply Qcompare_comp; [rewrite E; reflexivity | reflexivity]. }
  rewrite E'. reflexivity.
Qed.

Lemma rne_bounds (x : Q) : (Qfloor x <= rne x <= Qfloor x + 1)%Z.
Proof.
  unfold rne. destruct (Qcompare _ _); [destruct (Z.even _) | |]; lia.
Qed.

Lemma rne_mono (x y : Q) : x <= y -> (rne x <= rne y)%Z.
Proof.
  intros Hxy.
  pose proof (Qfloor_resp_le _ _ Hxy) as Hf.
  destruct (Z.eq_dec (Qfloor x) (Qfloor y)) as [E | N].
  - unfold rne. rewrite <- E.
    destruct (Qcompare (x - inject_Z (Qfloor x)) (1 # 2)) eqn:Cx;
      destruct (Qcompare (y - inject_Z (Qfloor x)) (1 # 2)) eqn:Cy;
      try rewrite <- Qeq_alt in *; try rewrite <- Qlt_alt in *; try rewrite <- Qgt_alt in *;
      try destruct (Z.even (Qfloor x)); try lia; try lra.
  - pose proof (rne_bounds x). pose proof (rne_bounds y). lia.
Qed.

Lemma rne_le_Z (x : Q) (n : Z) : x <= inject_Z n -> (rne x <= n)%Z.
Proof. intros H. rewrite <- (rne_Z n). apply rne_mono, H. Qed.

Lemma rne_ge_Z (x : Q) (n : Z) : inject_Z n <= x -> (n <= rne x)%Z.
Proof. intros H. rewrite <- (rne_Z n). apply rne_mono, H. Qed.

(** ** Rounding to a binary format *)

Lemma Qle_div_mult (a b c : Q) : 0 < c -> a <= b / c -> a * c <= b.
Proof.
  intros Hc H. apply Qle_trans with (b / c * c).
  - apply Qmult_le_compat_r; lra.
  - rewrite Qmult_comm, Qmult_div_r; lra.
Qed.

Lemma Qge_div_mult (a b c : Q) : 0 < c -> b / c <= a -> b <= a * c.
Proof.
  intros Hc H. apply Qle_trans with (b / c * c).
  - rewrite Qmult_comm, Qmult_div_r; lra.
  - apply Qmult_le_compat_r; lra.
Qed.

Section Round.

Variables prec emin : Z.
Hypothesis prec_positive : (1 <= prec)%Z.

Local Abbreviation cexp := (fp.cexp prec emin).
Local Abbreviation round_pos := (fp.round_pos prec emin).
Local Abbreviation round := (fp.round prec emin).
Local Abbreviation representable := (fp.representable prec emin).

Lemma cexp_emin (x : Q) : (emin <= cexp x)%Z.
Proof. unfold fp.cexp. lia. Qed.

Lemma cexp_proper (x y : Q) : 0 < x -> x == y -> cexp x = cexp y.
Proof. intros Hx E. unfold fp.cexp. rewrite (ilog2_proper x y Hx E). reflexivity. Qed.

Lemma cexp_mono (x y : Q) : 0 < x -> x <= y -> (cexp x <= cexp y)%Z.
Proof. intros Hx H. unfold fp.cexp. pose proof (ilog2_mono x y Hx H). lia. Qed.

Lemma round_pos_proper (x y : Q) : 0 < x -> x == y -> round_pos x == round_pos y.
Proof.
  intros Hx E. unfold fp.round_pos. rewrite (cexp_proper x y Hx E).
  rewrite (rne_proper (x / pow2 (cexp y)) (y / pow2 (cexp y))); [reflexivity |].
  rewrite E. reflexivity.
Qed.

Lemma round_pos_nonneg (x : Q) : 0 < x -> 0 <= round_pos x.
Proof.
  intros Hx. unfold fp.round_pos.
  pose proof (pow2_pos (cexp x)) as Hp.
  assert (0 <= rne (x / pow2 (cexp x)))%Z.
  { apply rne_ge_Z. change (inject_Z 0) with 0. apply Qle_shift_div_l; [exact Hp | lra]. }
  assert (0 <= inject_Z (rne (x / pow2 (cexp x)))) by (change 0 with (inject_Z 0); rewrite <- Zle_Qle; assumption).
  nra.
Qed.

(** A number [m 2^e] of a grid at least as coarse as the one [x] is
    rounded on bounds the rounding of [x] as it bounds [x]. *)
Lemma grid_quotient (x : Q) (m e : Z) :
  (cexp x <= e)%Z ->
  inject_Z m * pow2 e / pow2 (cexp x) == inject_Z (m * 2 ^ (e - cexp x)).
Proof.
  intros He. rewrite (pow2_split e (cexp x) He). rewrite inject_Z_mult.
  pose proof (pow2_pos (cexp x)). field. lra.
Qed.

Lemma round_pos_le_grid (x : Q) (m e : Z) :
  (cexp x <= e)%Z -> x <= inject_Z m * pow2 e -> round_pos x <= inject_Z m * pow2 e.
Proof.
  intros He Hx. unfold fp.round_pos.
  pose proof (pow2_pos (cexp x)) as Hp.
  assert (H : (rne (x / pow2 (cexp x)) <= m * 2 ^ (e - cexp x))%Z).
  { apply rne_le_Z. rewrite <- (grid_quotient x m e He).
    apply Qmult_le_compat_r; [exact Hx |]. apply Qlt_le_weak, Qinv_lt_0_compat, Hp. }
  rewrite Zle_Qle in H. rewrite <- (grid_quotient x m e He) in H.
  apply Qle_div_mult; assumption.
Qed.

Lemma round_pos_ge_grid (x : Q) (m e : Z) :
  (cexp x <= e)%Z -> inject_Z m * pow2 e <= x -> inject_Z m * pow2 e <= round_pos x.
Proof.
  intros He Hx. unfold fp.round_pos.
  pose proof (pow2_pos (cexp x)) as Hp.
  assert (H : (m * 2 ^ (e - cexp x) <= rne (x / pow2 (cexp x)))%Z).
  { apply rne_ge_Z. rewrite <- (grid_quotient x m e He).
    apply Qmult_le_compat_r; [exact Hx |]. apply Qlt_le_weak, Qinv_lt_0_compat, Hp. }
  rewrite Zle_Qle in H. rewrite <- (grid_quotient x m e He) in H.
  apply Qge_div_mult; assumption.
Qed.

Lemma round_pos_mono (x y : Q) : 0 < x -> x <= y -> round_pos x <= round_pos y.
Proof.
  intros Hx Hxy.
  assert (Hy : 0 < y) by lra.
  pose proof (cexp_mono x y Hx Hxy) as He.
  destruct (Z.eq_dec (cexp x) (cexp y)) as [E | N].
  - unfold fp.round_pos. rewrite E.
    pose proof (pow2_pos (cexp y)) as Hp.
    assert (H : (rne (x / pow2 (cexp y)) <= rne (y / pow2 (cexp y)))%Z).
    { apply rne_mono. apply Qmult_le_compat_r; [exact Hxy |].
      apply Qlt_le_weak, Qinv_lt_0_compat, Hp. }
    rewrite Zle_Qle in H. nra.
  - assert (Hlt : (cexp x < cexp y)%Z) by lia.
    assert (Ey : cexp y = (ilog2 y - (prec - 1))%Z).
    { pose proof (cexp_emin x). unfold fp.cexp in *. lia. }
    assert (Hl : (ilog2 x + 1 <= ilog2 y)%Z) by (unfold fp.cexp in *; lia).
    destruct (ilog2_spec x Hx) as [_ Hx2]. destruct (ilog2_spec y Hy) as [Hy1 _].
    pose proof (pow2_le _ _ Hl) as Hp.
    assert (EB : pow2 (ilog2 y) == inject_Z (2 ^ (prec - 1)) * pow2 (cexp y)).
    { rewrite Ey. rewrite (pow2_split (ilog2 y) (ilog2 y - (prec - 1))) by lia.
      replace (ilog2 y - (ilog2 y - (prec - 1)))%Z with (prec - 1)%Z by lia. reflexivity. }
    apply Qle_trans with (inject_Z (2 ^ (prec - 1)) * pow2 (cexp y)).
    + apply round_pos_le_grid; [lia |]. rewrite <- EB. lra.
    + apply round_pos_ge_grid; [lia |]. rewrite <- EB. exact Hy1.
Qed.

(** The three cases of [round]. *)
Lemma round_zero (x : Q) : x == 0 -> round x = 0.
Proof. intros H. unfold fp.round. rewrite Qeq_alt in H. rewrite H. reflexivity. Qed.

Lemma round_positive (x : Q) : 0 < x -> round x = Qred (round_pos x).
Proof.
  intros H. unfold fp.round.
  assert (E : Qcompare x 0 = Gt) by (rewrite <- Qgt_alt; exact H).
  rewrite E. reflexivity.
Qed.

Lemma round_negative (x : Q) : x < 0 -> round x = Qred (- round_pos (- x)).
Proof.
  intros H. unfold fp.round. rewrite Qlt_alt in H. rewrite H. reflexivity.
Qed.

Lemma round_cases (x : Q) :
  (x == 0 /\ round x = 0) \/
  (0 < x /\ round x = Qred (round_pos x)) \/
  (x < 0 /\ round x = Qred (- round_pos (- x))).
Proof.
  destruct (Q_dec x 0) as [[H | H] | H].
  - right. right. split; [exact H | apply round_negative, H].
  - right. left. split; [exact H | apply round_positive, H].
  - left. split; [exact H | apply round_zero, H].
Qed.

Lemma round_proper (x y : Q) : x == y -> round x = round y.
Proof.
  intros E. destruct (round_cases x) as [[H R] | [[H R] | [H R]]]; rewrite R.
  - symmetry. apply round_zero. rewrite <- E. exact H.
  - rewrite round_positive by (rewrite <- E; exact H).
    apply Qred_complete, round_pos_proper; assumption.
  - rewrite round_negative by (rewrite <- E; exact H).
    apply Qred_complete.
    rewrite (round_pos_proper (- x) (- y)); [reflexivity | lra | rewrite E; reflexivity].
Qed.

Lemma round_canonical (x : Q) : Qred (round x) = round x.
Proof.
  destruct (round_cases x) as [[H R] | [[H R] | [H R]]]; rewrite R.
  - reflexivity.
  - apply Qred_complete, Qred_correct.
  - apply Qred_complete, Qred_correct.
Qed.

Lemma round_eq (x y : Q) : round x == round y -> round x = round y.
Proof.
  intros E. rewrite <- (round_canonical x), <- (round_canonical y).
  apply Qred_complete, E.
Qed.

Lemma round_nonneg (x : Q) : 0 <= x -> 0 <= round x.
Proof.
  intros Hx. destruct (round_cases x) as [[H R] | [[H R] | [H R]]]; rewrite R.
  - lra.
  - rewrite Qred_correct. apply round_pos_nonneg, H.
  - lra.
Qed.

Lemma round_nonpos (x : Q) : x <= 0 -> round x <= 0.
Proof.
  intros Hx. destruct (round_cases x) as [[H R] | [[H R] | [H R]]]; rewrite R.
  - lra.
  - lra.
  - rewrite Qred_correct. pose proof (round_pos_nonneg (- x)). lra.
Qed.

Lemma round_mono (x y : Q) : x <= y -> round x <= round y.
Proof.
  intros Hxy.
  destruct (round_cases x) as [[Hx Rx] | [[Hx Rx] | [Hx Rx]]].
  - rewrite Rx. apply round_nonneg. lra.
  - rewrite Rx, (round_positive y) by lra. rewrite !Qred_correct.
    apply round_pos_mono; assumption.
  - destruct (Qlt_le_dec y 0) as [Hy | Hy].
    + rewrite Rx, (round_negative y Hy). rewrite !Qred_correct.
      pose proof (round_pos_mono (- y) (- x)). lra.
    + apply Qle_trans with 0; [apply round_nonpos; lra | apply round_nonneg, Hy].
Qed.

(** Every rounded number is representable; a representable number is
    rounded to itself. *)
Lemma round_pos_representable (x : Q) :
  0 < x ->
  (0 <= rne (x / pow2 (cexp x)) <= 2 ^ prec)%Z.
Proof.
  intros Hx. pose proof (pow2_pos (cexp x)) as Hp. split.
  - apply rne_ge_Z. change (inject_Z 0) with 0. apply Qle_shift_div_l; [exact Hp | lra].
  - apply rne_le_Z. apply Qle_shift_div_r; [exact Hp |].
    rewrite <- pow2_Z by lia. rewrite <- pow2_add.
    destruct (ilog2_spec x Hx) as [_ H2].
    assert (pow2 (ilog2 x + 1) <= pow2 (prec + cexp x)).
    { apply pow2_le. unfold fp.cexp. lia. }
    lra.
Qed.

Lemma round_representable (x : Q) : representable (round x).
Proof.
  destruct (round_cases x) as [[H R] | [[H R] | [H R]]]; rewrite R.
  - exists 0%Z, emin. split; [ring | split; [| lia]].
    pose proof (Z.pow_nonneg 2 prec). simpl. lia.
  - exists (rne (x / pow2 (cexp x))), (cexp x). split; [apply Qred_correct |].
    pose proof (round_pos_representable x H). split; [lia | apply cexp_emin].
  - exists (- rne (- x / pow2 (cexp (- x))))%Z, (cexp (- x)).
    split; [rewrite Qred_correct; unfold fp.round_pos; rewrite inject_Z_opp; ring |].
    assert (Hx : 0 < - x) by lra.
    pose proof (round_pos_representable (- x) Hx). split; [lia | apply cexp_emin].
Qed.

Lemma round_pos_fixes_below (v : Q) (m e : Z) :
  0 < v -> v == inject_Z m * pow2 e -> (m < 2 ^ prec)%Z -> (emin <= e)%Z ->
  round_pos v == v.
Proof.
  intros Hv E Hm He.
  assert (Hc : (cexp v <= e)%Z).
  { assert (Hlt : v < pow2 (prec + e)).
    { rewrite pow2_add, pow2_Z by lia. rewrite E.
      pose proof (pow2_pos e). assert (inject_Z m < inject_Z (2 ^ prec)) by (rewrite <- Zlt_Qlt; exact Hm).
      nra. }
    pose proof (ilog2_below v _ Hv Hlt). unfold fp.cexp. lia. }
  apply Qle_antisym.
  - rewrite E at 2. apply round_pos_le_grid; [exact Hc | rewrite E; apply Qle_refl].
  - rewrite E at 1. apply round_pos_ge_grid; [exact Hc | rewrite E; apply Qle_refl].
Qed.

Lemma round_pos_fixes (v : Q) (m e : Z) :
  0 < v -> v == inject_Z m * pow2 e -> (m <= 2 ^ prec)%Z -> (emin <= e)%Z ->
  round_pos v == v.
Proof.
  intros Hv E Hm He.
  destruct (Z.eq_dec m (2 ^ prec)) as [Em | Nm].
  - apply (round_pos_fixes_below v (2 ^ (prec - 1)) (e + 1)); [exact Hv | | | lia].
    + rewrite E, Em. rewrite pow2_add. rewrite <- !pow2_Z by lia.
      replace prec with (prec - 1 + 1)%Z at 1 by lia. rewrite pow2_add. ring.
    + apply Z.pow_lt_mono_r; lia.
  - apply (round_pos_fixes_below v m e); [exact Hv | exact E | lia | exact He].
Qed.

Lemma round_fixes (v : Q) : representable v -> round v == v.
Proof.
  intros (m & e & E & Hm & He).
  destruct (round_cases v) as [[H R] | [[H R] | [H R]]]; rewrite R.
  - symmetry. exact H.
  - rewrite Qred_correct. apply (round_pos_fixes v m e); [exact H | exact E | lia | exact He].
  - rewrite Qred_correct.
    rewrite (round_pos_fixes (- v) (- m) e); [ring | lra | | lia | exact He].
    rewrite E, inject_Z_opp. ring.
Qed.

Lemma round_idempotent (x : Q) : round (round x) = round x.
Proof.
  rewrite <- (round_canonical x) at 2.
  rewrite <- (round_canonical (round x)).
  apply Qred_complete, round_fixes, round_representable.
Qed.

(** Two representable numbers differ by a multiple of [2^emin]. *)
Lemma representable_grid (v : Q) :
  representable v -> exists k : Z, v == inject_Z k * pow2 emin.
Proof.
  intros (m & e & E & _ & He).
  exists (m * 2 ^ (e - emin))%Z. rewrite E, inject_Z_mult.
  rewrite (pow2_split e emin He). ring.
Qed.

Lemma round_above_grid (z : Q) : pow2 emin <= z -> 0 < round z.
Proof.
  intros Hz. pose proof (pow2_pos emin) as Hp.
  assert (Hz0 : 0 < z) by lra.
  rewrite (round_positive z Hz0), Qred_correct.
  assert (H : inject_Z 1 * pow2 (cexp z) <= round_pos z).
  { apply round_pos_ge_grid; [lia |].
    assert (pow2 (cexp z) <= z); [| change (inject_Z 1) with 1; lra].
    unfold fp.cexp. destruct (Z.max_spec (ilog2 z - (prec - 1)) emin) as [[_ E] | [_ E]]; rewrite E.
    - exact Hz.
    - destruct (ilog2_spec z Hz0) as [H1 _].
      assert (pow2 (ilog2 z - (prec - 1)) <= pow2 (ilog2 z)) by (apply pow2_le; lia).
      lra. }
  pose proof (pow2_pos (cexp z)). change (inject_Z 1) with 1 in H. lra.
Qed.

Lemma round_difference_positive (u v : Q) :
  representable u -> representable v -> u < v -> 0 < round (v - u).
Proof.
  intros Hu Hv Huv.
  destruct (representable_grid u Hu) as [ku Eu].
  destruct (representable_grid v Hv) as [kv Ev].
  pose proof (pow2_pos emin) as Hp.
  apply round_above_grid.
  assert (Hk : (ku < kv)%Z).
  { apply Z.nle_gt. intros Hle. rewrite Zle_Qle in Hle. nra. }
  assert (Hk1 : inject_Z ku + 1 <= inject_Z kv).
  { change 1 with (inject_Z 1). rewrite <- inject_Z_plus, <- Zle_Qle. lia. }
  nra.
Qed.

End Round.

(** A number of a format is a number of every format with more digits and
    a smaller least exponent. *)
Lemma representable_weaken (prec emin prec' emin' : Z) (v : Q) :
  (prec <= prec')%Z -> (emin' <= emin)%Z ->
  representable prec emin v -> representable prec' emin' v.
Proof.
  intros Hp He (m & e & E & Hm & Hee).
  exists m, e. split; [exact E | split; [| lia]].
  assert (2 ^ prec <= 2 ^ prec')%Z by (apply Z.pow_le_mono_r; lia). lia.
Qed.

(** ** The two formats of the function *)

Lemma float32_proper (x y : Q) : x == y -> float32 x = float32 y.
Proof. apply round_proper. Qed.


Lemma float32_mono (x y : Q) : x <= y -> float32 x <= float32 y.
Proof. apply round_mono. lia. Qed.

Lemma float64_mono (x y : Q) : x <= y -> float64 x <= float64 y.
Proof. apply round_mono. lia. Qed.

Lemma float32_nonneg (x : Q) : 0 <= x -> 0 <= float32 x.
Proof. apply round_nonneg. Qed.

Lemma float64_nonneg (x : Q) : 0 <= x -> 0 <= float64 x.
Proof. apply round_nonneg. Qed.

Lemma float32_idempotent (x : Q) : float32 (float32 x) = float32 x.
Proof. apply round_idempotent. lia. Qed.

Lemma float32_eq (x y : Q) : float32 x == float32 y -> float32 x = float32 y.
Proof. apply round_eq. Qed.

(** A [float32] converts to [float64] unchanged. *)
Lemma float64_float32 (x : Q) : float64 (float32 x) = float32 x.
Proof.
  unfold float32 at 2. rewrite <- (round_canonical 24 (-149) x).
  unfold float64. rewrite <- (round_canonical 53 (-1074)).
  apply Qred_complete, round_fixes; [lia |].
  apply (representable_weaken 24 (-149)); [lia | lia |].
  apply round_representable. lia.
Qed.

(** The difference of two distinct [float32] does not round to zero. *)
Lemma float32_difference_positive (x y : Q) :
  float32 x < float32 y -> 0 < float32 (float32 y - float32 x).
Proof.
  intros H. apply round_difference_positive; [lia | | | exact H];
    apply round_representable; lia.
Qed.

(** * The function in floating point *)

(** ** Lines 78-88, rank by rank *)

Section FloatInterpolate.

Variables sorted_a sorted_cum_weights partial_sum : list Q.
Hypothesis a_length : length sorted_a = length partial_sum.
Hypothesis cum_length : length sorted_cum_weights = length partial_sum.
Hypothesis a_nonempty : sorted_a <> [].

Let n : Z := Z.of_nat (length sorted_cum_weights).
Let start_of (x : Q) : Z := (Z.of_nat (np.searchsorted partial_sum x) - 1)%Z.
Let is_valid (s : Z) : bool := negb (s =? n - 1)%Z && negb (s =? -1)%Z.
Let value_of (x : Q) : Q :=
  float64 (nth (Z.to_nat (start_of x)) sorted_a 0 +
    float64 (float64 (float64 (x - nth (Z.to_nat (start_of x)) partial_sum 0) /
                      float32 (nth (Z.to_nat (start_of x + 1)) partial_sum 0 -
                               nth (Z.to_nat (start_of x)) partial_sum 0)) *
             float32 (nth (Z.to_nat (start_of x + 1)) sorted_a 0 -
                      nth (Z.to_nat (start_of x)) sorted_a 0))).

Lemma float_percentile_at_cases (x : Q) :
  Float.percentile_at sorted_a partial_sum x =
  if is_valid (start_of x) then value_of x
  else if (start_of x =? -1)%Z then nth 0 sorted_a 0
  else if (start_of x =? n - 1)%Z then nth (length sorted_a - 1) sorted_a 0
  else 0.
Proof.
  unfold Float.percentile_at, value_of, is_valid, start_of, n.
  rewrite cum_length, a_length.
  destruct (searchsorted_spec partial_sum x) as (Hr & _).
  destruct (np.searchsorted partial_sum x) as [|k] eqn:Er.
  - cbn [Z.of_nat Z.sub Z.add Z.opp Z.pos_sub Z.eqb negb andb].
    rewrite andb_false_r. reflexivity.
  - destruct (Nat.eqb_spec (S k) (length partial_sum)) as [He|Hne].
    + rewrite <- He. rewrite Z.eqb_refl. cbn [negb andb].
      destruct (Z.eqb_spec (Z.of_nat (S k) - 1) (-1)) as [Hz|_]; [lia|].
      reflexivity.
    + destruct (Z.eqb_spec (Z.of_nat (S k) - 1)
                           (Z.of_nat (length partial_sum) - 1)) as [Hz|_]; [lia|].
      destruct (Z.eqb_spec (Z.of_nat (S k) - 1) (-1)) as [Hz|_]; [lia|].
      cbn [negb andb].
      replace (Z.to_nat (Z.of_nat (S k) - 1)) with k by lia.
      replace (Z.to_nat (Z.of_nat (S k) - 1 + 1)) with (S k) by lia.
      reflexivity.
Qed.

Lemma float_interpolate_pointwise (q : list Q) :
  Float.interpolate sorted_a sorted_cum_weights partial_sum q =
  Ok (map (Float.percentile_at sorted_a partial_sum) q).
Proof.
  unfold Float.interpolate. fold n. fold start_of.
  rewrite (getitem_last sorted_a 0 a_nonempty).
  assert (Hlen : (0 < length sorted_a)%nat)
    by (destruct sorted_a; [congruence | simpl; lia]).
  pose proof (getitem_nat sorted_a 0 0 Hlen) as Hfirst.
  cbn [Z.of_nat] in Hfirst. rewrite Hfirst.
  cbn [bind].
  change (fun s : Z => negb (s =? n - 1)%Z && negb (s =? -1)%Z) with is_valid.
  set (valid := map is_valid (map start_of q)).
  assert (Hlo : Forall (fun i => (0 <= i < Z.of_nat (length partial_sum))%Z)
                       (np.compress valid (map start_of q))).
  { apply compress_map_Forall. intros x _ Hx.
    apply (start_valid_bounds sorted_a sorted_cum_weights partial_sum a_length cum_length) in Hx.
    unfold start_of. lia. }
  assert (Hhi : Forall (fun i => (0 <= i < Z.of_nat (length partial_sum))%Z)
                       (map (fun s => (s + 1)%Z) (np.compress valid (map start_of q)))).
  { rewrite Forall_map.
    apply (compress_map_Forall start_of is_valid
             (fun s => (0 <= s + 1 < Z.of_nat (length partial_sum))%Z)).
    intros x _ Hx.
    apply (start_valid_bounds sorted_a sorted_cum_weights partial_sum a_length cum_length) in Hx.
    unfold start_of. lia. }
  rewrite (take_Z partial_sum _ 0 Hlo), (take_Z partial_sum _ 0 Hhi).
  rewrite <- a_length in Hlo, Hhi.
  rewrite (take_Z sorted_a _ 0 Hlo), (take_Z sorted_a _ 0 Hhi).
  cbn [bind]. f_equal.
  rewrite compress_map, !map_map, map2_map_l, !map2_map.
  unfold valid.
  rewrite (masked_assignments sorted_cum_weights partial_sum _ _ value_of).
  apply map_ext. intro x. rewrite float_percentile_at_cases. reflexivity.
Qed.

End FloatInterpolate.

(** ** Cumulative weights and positions in [float32] *)

Lemma float_cumsum_from_length (l : list Q) (acc : Q) :
  length (Float.cumsum_from acc l) = length l.
Proof.
  revert acc. induction l as [|x l IH]; intro acc; simpl; [reflexivity|].
  now rewrite IH.
Qed.

Lemma float_cumsum_length (l : list Q) : length (Float.cumsum l) = length l.
Proof.
  destruct l as [|x l]; simpl; [reflexivity|]. now rewrite float_cumsum_from_length.
Qed.

Lemma float_cumsum_from_step (l : list Q) (acc : Q) (k : nat) :
  (S k < length l)%nat ->
  nth (S k) (Float.cumsum_from acc l) 0 =
  float32 (nth k (Float.cumsum_from acc l) 0 + nth (S k) l 0).
Proof.
  revert acc k. induction l as [|x l IH]; intros acc k H; simpl in H; [lia|].
  destruct k as [|k].
  - destruct l as [|y l]; simpl in *; [lia | reflexivity].
  - change (nth (S k) (Float.cumsum_from (float32 (acc + x)) l) 0 =
            float32 (nth k (Float.cumsum_from (float32 (acc + x)) l) 0 + nth (S k) l 0)).
    apply IH. lia.
Qed.

Lemma float_cumsum_step (l : list Q) (k : nat) :
  (S k < length l)%nat ->
  nth (S k) (Float.cumsum l) 0 = float32 (nth k (Float.cumsum l) 0 + nth (S k) l 0).
Proof.
  destruct l as [|x l]; simpl; intro H; [lia|].
  destruct k as [|k].
  - destruct l as [|y l]; simpl in *; [lia | reflexivity].
  - apply float_cumsum_from_step. lia.
Qed.

Lemma float_cumsum_head (l : list Q) : nth 0 (Float.cumsum l) 0 = nth 0 l 0.
Proof. destruct l; reflexivity. Qed.

Lemma float_centres_length (cum sw : list Q) :
  length cum = length sw -> length (Float.centres cum sw) = length sw.
Proof.
  unfold Float.centres, Float.halves.
  revert sw. induction cum as [|c cum IH]; intros [|w sw] H; simpl in *;
    try reflexivity; try discriminate.
  f_equal. apply IH. lia.
Qed.

Lemma float_centres_nth (cum sw : list Q) (k : nat) :
  length cum = length sw -> (k < length sw)%nat ->
  nth k (Float.centres cum sw) 0 = float32 (nth k cum 0 - float32 (nth k sw 0 / 2)).
Proof.
  unfold Float.centres, Float.halves.
  revert sw k. induction cum as [|c cum IH]; intros [|w sw] k H Hk; simpl in *;
    try lia.
  destruct k as [|k]; [reflexivity|].
  apply IH; lia.
Qed.

Lemma float_partial_sum_length (total : Q) (cum sw : list Q) :
  length cum = length sw -> length (Float.partial_sum_of total cum sw) = length sw.
Proof.
  intro H. unfold Float.partial_sum_of. rewrite length_map.
  now apply float_centres_length.
Qed.

Lemma nth_map_in {A B : Type} (f : A -> B) (l : list A) (k : nat) (da : A) (db : B) :
  (k < length l)%nat -> nth k (map f l) db = f (nth k l da).
Proof.
  intro H. rewrite (nth_indep (map f l) db (f da)) by (now rewrite length_map).
  apply map_nth.
Qed.

Lemma float_partial_sum_nth (total : Q) (cum sw : list Q) (k : nat) :
  length cum = length sw -> (k < length sw)%nat ->
  nth k (Float.partial_sum_of total cum sw) 0 =
  float32 (Float.scale total * float32 (nth k cum 0 - float32 (nth k sw 0 / 2))).
Proof.
  intros H Hk. unfold Float.partial_sum_of.
  rewrite (nth_map_in _ _ k 0 0) by (rewrite float_centres_length; assumption).
  now rewrite float_centres_nth.
Qed.

Lemma float_positions_length (sw : list Q) : length (Float.positions sw) = length sw.
Proof. apply float_partial_sum_length, float_cumsum_length. Qed.

Lemma float_positions_nth (sw : list Q) (k : nat) :
  (k < length sw)%nat ->
  nth k (Float.positions sw) 0 =
  float32 (Float.scale (Float.total_weight sw) *
           float32 (nth k (Float.cumsum sw) 0 - float32 (nth k sw 0 / 2))).
Proof. intro Hk. apply float_partial_sum_nth; [apply float_cumsum_length | exact Hk]. Qed.

(** ** Weights that are not negative *)

Lemma Qdiv_nonneg (x y : Q) : 0 <= x -> 0 <= y -> 0 <= x / y.
Proof.
  intros Hx Hy. unfold Qdiv. apply Qmult_le_0_compat; [exact Hx |].
  apply Qinv_le_0_compat, Hy.
Qed.

Section FloatNonNegative.

Variable sw : list Q.
Hypothesis sw_nonneg : Forall (fun w => 0 <= w) sw.
Hypothesis sw_float32 : Forall (fun w => float32 w = w) sw.

Lemma weight_nonneg (k : nat) : 0 <= nth k sw 0.
Proof.
  destruct (Nat.lt_ge_cases k (length sw)) as [H | H].
  - rewrite Forall_forall in sw_nonneg. apply sw_nonneg, nth_In, H.
  - rewrite nth_overflow by exact H. apply Qle_refl.
Qed.

Lemma float_cumsum_ge_weight (k : nat) :
  (k < length sw)%nat -> nth k sw 0 <= nth k (Float.cumsum sw) 0.
Proof.
  induction k as [|k IH]; intro Hk.
  - rewrite float_cumsum_head. apply Qle_refl.
  - rewrite float_cumsum_step by exact Hk.
    assert (Hf : float32 (nth (S k) sw 0) = nth (S k) sw 0).
    { rewrite Forall_forall in sw_float32. apply sw_float32, nth_In, Hk. }
    rewrite <- Hf at 1. apply float32_mono.
    pose proof (weight_nonneg k). specialize (IH ltac:(lia)). lra.
Qed.

Lemma float_cumsum_nonneg (k : nat) : 0 <= nth k (Float.cumsum sw) 0.
Proof.
  destruct (Nat.lt_ge_cases k (length sw)) as [H | H].
  - pose proof (float_cumsum_ge_weight k H). pose proof (weight_nonneg k). lra.
  - rewrite nth_overflow by (rewrite float_cumsum_length; exact H). apply Qle_refl.
Qed.

Lemma float_half_le_weight (k : nat) :
  (k < length sw)%nat -> float32 (nth k sw 0 / 2) <= nth k sw 0.
Proof.
  intro Hk.
  assert (Hf : float32 (nth k sw 0) = nth k sw 0).
  { rewrite Forall_forall in sw_float32. apply sw_float32, nth_In, Hk. }
  rewrite <- Hf at 2. apply float32_mono.
  pose proof (weight_nonneg k). rewrite Qhalf. lra.
Qed.

Lemma float_scale_nonneg : 0 <= Float.scale (Float.total_weight sw).
Proof.
  apply float32_nonneg, Qdiv_nonneg; [discriminate |].
  apply float_cumsum_nonneg.
Qed.

Lemma float_position_nonneg (k : nat) : 0 <= nth k (Float.positions sw) 0.
Proof.
  destruct (Nat.lt_ge_cases k (length sw)) as [H | H].
  - rewrite float_positions_nth by exact H.
    apply float32_nonneg, Qmult_le_0_compat; [apply float_scale_nonneg |].
    apply float32_nonneg.
    pose proof (float_cumsum_ge_weight k H). pose proof (float_half_le_weight k H). lra.
  - rewrite nth_overflow by (rewrite float_positions_length; exact H). apply Qle_refl.
Qed.

End FloatNonNegative.

(** ** Lines 56-70 with any sort *)

Section FloatPrepare.

Variable argsort : list Q -> list Z.
Hypothesis argsort_sorts : forall l, valid_sorter l (Some (argsort l)).

Lemma float_prepare_no_sorter (a weights : list Q) :
  length a = length weights ->
  exists sa sw,
    Float.prepare argsort a weights None = Ok (sa, sw) /\ prepared a weights sa sw.
Proof.
  intro Hlen. unfold Float.prepare. cbn [bind fst snd].
  set (a1 := np.compress (map nonzero weights) a).
  set (w1 := np.compress (map nonzero weights) weights).
  assert (Hlen1 : length a1 = length w1) by now apply compress_length.
  destruct (argsort_sorts a1) as [Hperm Hasc].
  pose proof (sorter_in_bounds _ _ Hperm) as Hb.
  rewrite (take_Z a1 _ 0) by exact Hb.
  rewrite (take_Z w1 _ 0) by (now rewrite <- Hlen1).
  cbn [bind]. eexists. eexists. split; [reflexivity|].
  split; [now rewrite !length_map|].
  split; [now apply ascending_StronglySorted|].
  rewrite <- (map_map Z.to_nat (fun i => nth i a1 0)).
  rewrite <- (map_map Z.to_nat (fun i => nth i w1 0)).
  rewrite gather_combine by assumption.
  rewrite map_map.
  unfold nonzero_pairs. rewrite <- compress_combine by assumption.
  fold a1 w1. apply gather_permutation_Z.
  now rewrite length_combine, <- Hlen1, Nat.min_id.
Qed.

Lemma float_prepare_valid (a weights : list Q) (sorter : option (list Z)) :
  length a = length weights ->
  valid_sorter a sorter ->
  exists sa sw,
    Float.prepare argsort a weights sorter = Ok (sa, sw) /\ prepared a weights sa sw.
Proof.
  destruct sorter as [s|]; intros Hlen Hs.
  - now apply prepare_sorter.
  - now apply float_prepare_no_sorter.
Qed.

End FloatPrepare.

Lemma float_prepare_lengths argsort a weights sorter sa sw :
  length a = length weights ->
  Float.prepare argsort a weights sorter = Ok (sa, sw) -> length sa = length sw.
Proof.
  intro Hlen. destruct sorter as [s|].
  - apply (prepare_lengths a weights (Some s)). exact Hlen.
  - unfold Float.prepare. cbn [bind fst snd].
    match goal with |- context [np.take ?l ?i] =>
      destruct (np.take l i) as [sa'|] eqn:Ea end; cbn [bind]; [|discriminate].
    match goal with |- context [np.take ?l ?i] =>
      destruct (np.take l i) as [sw'|] eqn:Ew end; cbn [bind]; [|discriminate].
    intro H. inversion H. subst.
    apply take_length in Ea, Ew.
    pose proof (compress_length (map nonzero weights) a weights Hlen). congruence.
Qed.

(** ** Lines 72-88 on sorted samples *)

Lemma float_percentiles_of_sorted_nil (sa q : list Q) :
  Float.percentiles_of_sorted sa [] q = Some (Raise IndexError).
Proof. reflexivity. Qed.

Lemma float_percentiles_of_sorted_cons (sa sw q : list Q) :
  length sa = length sw -> sw <> [] ->
  Float.percentiles_of_sorted sa sw q =
  if Float.positions_finite sw && Float.ascendingb (Float.positions sw) &&
     forallb (Float.interpolation_finite sa (Float.positions sw)) q
  then Some (Ok (map (Float.percentile_at sa (Float.positions sw)) q))
  else None.
Proof.
  intros Hlen Hne. unfold Float.percentiles_of_sorted.
  assert (Hc : Float.cumsum sw <> [])
    by (destruct sw; [congruence | discriminate]).
  rewrite (getitem_last _ 0 Hc).
  rewrite float_cumsum_length. fold (Float.total_weight sw). fold (Float.positions sw).
  destruct (_ && _ && _); [| reflexivity].
  f_equal. apply float_interpolate_pointwise.
  - rewrite float_positions_length. exact Hlen.
  - now rewrite float_cumsum_length, float_positions_length.
  - destruct sa; [|discriminate]. destruct sw; [congruence | discriminate].
Qed.

(** ** The validation of lines 48-54 *)

Lemma float64_0 : float64 0 = 0.
Proof. reflexivity. Qed.

Lemma float64_100 : float64 100 = 100.
Proof. vm_compute. reflexivity. Qed.


Lemma in_range_float64 (x : Q) : in_range x -> in_range (float64 x).
Proof.
  intros [H0 H1]. split.
  - apply float64_nonneg, H0.
  - rewrite <- float64_100. apply float64_mono, H1.
Qed.

Lemma valid_ranks_float64 (q : rank_arg) :
  valid_ranks q ->
  Float.array64 (np.flatten q) <> [] /\ Forall in_range (Float.array64 (np.flatten q)).
Proof.
  intros [Hne Hr]. split.
  - destruct (np.flatten q); [congruence | discriminate].
  - unfold Float.array64. rewrite Forall_map.
    eapply Forall_impl; [| exact Hr]. intros x Hx. now apply in_range_float64.
Qed.

Lemma asarray32_length (l : list Q) : length (Float.asarray32 l) = length l.
Proof. apply length_map. Qed.

Lemma asarray32_float32 (l : list Q) : Forall (fun x => float32 x = x) (Float.asarray32 l).
Proof.
  unfold Float.asarray32. rewrite Forall_map. apply Forall_forall.
  intros x _. apply float32_idempotent.
Qed.

Lemma asarray32_nonneg (l : list Q) :
  Forall (fun x => 0 <= x) l -> Forall (fun x => 0 <= x) (Float.asarray32 l).
Proof.
  intro H. unfold Float.asarray32. rewrite Forall_map.
  eapply Forall_impl; [| exact H]. intros x Hx.
  apply float32_nonneg, float64_nonneg, Hx.
Qed.

(** The function on valid ranks. *)
Lemma float_wp_validated argsort a q weights sorter :
  valid_ranks q ->
  Float.weighted_percentile argsort a q weights sorter =
  let w := default_weights a weights in
  if negb (forallb finite64 (Float.array64 a ++ Float.array64 w)) then None
  else if negb (length a =? length w)%nat then Some (Raise (ValueError msg_length))
  else if negb (forallb finite32 (Float.asarray32 a ++ Float.asarray32 w)) then None
  else match Float.prepare argsort (Float.asarray32 a) (Float.asarray32 w) sorter with
       | Raise e => Some (Raise e)
       | Ok (sa, sw) => Float.percentiles_of_sorted sa sw (Float.array64 (np.flatten q))
       end.
Proof.
  intro Hq. destruct (valid_ranks_float64 q Hq) as [Hne Hr].
  unfold Float.weighted_percentile.
  destruct (Float.array64 (np.flatten q)) as [|x t] eqn:E; [congruence|].
  cbn [np.amax np.amin bind]. rewrite range_test_false by assumption.
  cbv zeta. rewrite !asarray32_length. reflexivity.
Qed.

(** What a call that returns has gone through. *)
Lemma float_wp_ok_inv argsort a q weights sorter vs :
  Float.weighted_percentile argsort a q weights sorter = Some (Ok vs) ->
  let w := default_weights a weights in
  let q64 := Float.array64 (np.flatten q) in
  exists sa sw,
    length a = length w /\
    Float.prepare argsort (Float.asarray32 a) (Float.asarray32 w) sorter = Ok (sa, sw) /\
    length sa = length sw /\
    sw <> [] /\
    Float.positions_finite sw = true /\
    Float.ascendingb (Float.positions sw) = true /\
    forallb (Float.interpolation_finite sa (Float.positions sw)) q64 = true /\
    vs = map (Float.percentile_at sa (Float.positions sw)) q64.
Proof.
  intros H w q64. unfold Float.weighted_percentile in H. fold w q64 in H.
  destruct q64 as [|x t] eqn:E; [discriminate|].
  cbn [np.amax np.amin bind] in H.
  destruct (_ || _) in H; [discriminate|].
  destruct (negb (forallb finite64 _)) in H; [discriminate|].
  rewrite !asarray32_length in H.
  destruct (Nat.eqb_spec (length a) (length w)) as [Hlen|]; [|discriminate].
  cbn [negb] in H.
  destruct (negb (forallb finite32 _)) in H; [discriminate|].
  destruct (Float.prepare argsort (Float.asarray32 a) (Float.asarray32 w) sorter)
    as [[sa sw]|e] eqn:Ep; [|discriminate].
  assert (Hl : length sa = length sw).
  { eapply float_prepare_lengths; [| exact Ep]. now rewrite !asarray32_length. }
  assert (Hsw : sw <> []).
  { intro Es. subst sw. rewrite float_percentiles_of_sorted_nil in H. discriminate. }
  rewrite float_percentiles_of_sorted_cons in H by assumption.
  destruct (Float.positions_finite sw) eqn:G1; [|discriminate].
  destruct (Float.ascendingb (Float.positions sw)) eqn:G2; [|discriminate].
  destruct (forallb _ _) eqn:G3; [|discriminate].
  cbn [andb] in H. inversion H.
  exists sa, sw. repeat split; try assumption; reflexivity.
Qed.

(** A call on valid ranks and well-formed arrays that stays within the
    finite floats returns. *)
Lemma float_wp_returns argsort a q weights sorter sa sw :
  let w := default_weights a weights in
  valid_ranks q ->
  length a = length w ->
  Float.prepare argsort (Float.asarray32 a) (Float.asarray32 w) sorter = Ok (sa, sw) ->
  sw <> [] ->
  Float.weighted_percentile argsort a q weights sorter <> None ->
  Float.weighted_percentile argsort a q weights sorter =
  Some (Ok (map (Float.percentile_at sa (Float.positions sw))
                (Float.array64 (np.flatten q)))).
Proof.
  intros w Hq Hlen Hp Hsw Hnone.
  rewrite float_wp_validated in Hnone |- * by exact Hq.
  cbv zeta in *. fold w in Hnone |- *.
  destruct (negb (forallb finite64 _)); [congruence|].
  apply Nat.eqb_eq in Hlen. rewrite Hlen in *. cbn [negb] in *.
  destruct (negb (forallb finite32 _)); [congruence|].
  rewrite Hp in *.
  assert (Hl : length sa = length sw).
  { eapply float_prepare_lengths; [| exact Hp].
    rewrite !asarray32_length. now apply Nat.eqb_eq. }
  rewrite float_percentiles_of_sorted_cons in Hnone |- * by assumption.
  destruct (_ && _ && _); [reflexivity | congruence].
Qed.

(** ** Well-formed input *)

Lemma prepared_float32 (a w sa sw : list Q) :
  length a = length w ->
  prepared (Float.asarray32 a) (Float.asarray32 w) sa sw ->
  Forall (fun x => float32 x = x) sa /\ Forall (fun x => float32 x = x) sw.
Proof.
  intros Hlen Hp.
  assert (Hl : length (Float.asarray32 a) = length (Float.asarray32 w))
    by (now rewrite !asarray32_length).
  split; apply Forall_forall; intros x Hx.
  - apply (Permutation_in _ (prepared_samples _ _ _ _ Hl Hp)) in Hx.
    apply compress_In in Hx.
    pose proof (asarray32_float32 a) as H. rewrite Forall_forall in H. now apply H.
  - apply (Permutation_in _ (prepared_weights _ _ _ _ Hl Hp)) in Hx.
    apply compress_In in Hx.
    pose proof (asarray32_float32 w) as H. rewrite Forall_forall in H. now apply H.
Qed.

Lemma prepared_nonneg (a w sa sw : list Q) :
  length a = length w ->
  Forall (fun x => 0 <= x) w ->
  prepared (Float.asarray32 a) (Float.asarray32 w) sa sw ->
  Forall (fun x => 0 <= x) sw.
Proof.
  intros Hlen Hw Hp.
  assert (Hl : length (Float.asarray32 a) = length (Float.asarray32 w))
    by (now rewrite !asarray32_length).
  apply Forall_forall; intros x Hx.
  apply (Permutation_in _ (prepared_weights _ _ _ _ Hl Hp)) in Hx.
  apply compress_In in Hx.
  pose proof (asarray32_nonneg w Hw) as H. rewrite Forall_forall in H. now apply H.
Qed.

Section FloatRun.

Variable argsort : list Q -> list Z.
Hypothesis argsort_sorts : forall l, valid_sorter l (Some (argsort l)).

(** The sorted arrays of a call on arrays of one length, with a sorter
    that is absent or sorts the [float32] samples. *)
Lemma float_wp_prepared (a : list Q) (weights : option (list Q))
    (sorter : option (list Z)) :
  let w := default_weights a weights in
  length a = length w ->
  valid_sorter (Float.asarray32 a) sorter ->
  exists sa sw,
    Float.prepare argsort (Float.asarray32 a) (Float.asarray32 w) sorter = Ok (sa, sw) /\
    prepared (Float.asarray32 a) (Float.asarray32 w) sa sw /\
    length sa = length sw /\
    StronglySorted Qle sa /\
    Forall (fun x => float32 x = x) sa /\
    Forall (fun x => float32 x = x) sw.
Proof.
  intros w Hlen Hs.
  assert (Hl : length (Float.asarray32 a) = length (Float.asarray32 w))
    by (now rewrite !asarray32_length).
  destruct (float_prepare_valid argsort argsort_sorts _ _ sorter Hl Hs)
    as (sa & sw & Hp & Hprep).
  destruct (prepared_float32 a w sa sw Hlen Hprep) as [Hfa Hfw].
  exists sa, sw. repeat split; try assumption; apply Hprep.
Qed.

Lemma float_wp_prepared_nonempty (a : list Q) (weights : option (list Q))
    (sa sw : list Q) :
  let w := default_weights a weights in
  length a = length w ->
  Exists (fun x => 0 < x) (Float.asarray32 w) ->
  prepared (Float.asarray32 a) (Float.asarray32 w) sa sw ->
  sw <> [] /\ sa <> [].
Proof.
  intros w Hlen Hex Hprep.
  assert (Hl : length (Float.asarray32 a) = length (Float.asarray32 w))
    by (now rewrite !asarray32_length).
  pose proof (prepared_weights _ _ _ _ Hl Hprep) as Hperm.
  pose proof (effective_weights_nonempty _ Hex) as Hne.
  assert (Hsw : sw <> []).
  { intro E. subst sw. apply Permutation_nil in Hperm.
    unfold effective_weights in Hne. congruence. }
  split; [exact Hsw |].
  destruct Hprep as (Hlen' & _). intro E. subst sa.
  destruct sw; [congruence | discriminate].
Qed.

End FloatRun.

(** ** The value at one rank *)

Section FloatPercentileAt.

Variables sa p : list Q.
Hypothesis lengths : length sa = length p.
Hypothesis sa_ascending : ascending sa.
Hypothesis sa_float32 : Forall (fun x => float32 x = x) sa.

Lemma sample_float64 (k : nat) : float64 (nth k sa 0) = nth k sa 0.
Proof.
  destruct (Nat.lt_ge_cases k (length sa)) as [H | H].
  - rewrite Forall_forall in sa_float32.
    rewrite <- (sa_float32 (nth k sa 0)) by (apply nth_In, H).
    apply float64_float32.
  - rewrite nth_overflow by exact H. reflexivity.
Qed.

(** The interpolation fraction and the product of line 88 are not
    negative. *)
Lemma float_fraction_nonneg (x : Q) (k : nat) :
  np.searchsorted p x = S k -> (S k < length p)%nat ->
  0 <= float64 (float64 (x - nth k p 0) / float32 (nth (S k) p 0 - nth k p 0)).
Proof.
  intros Hr H.
  destruct (searchsorted_spec p x) as (Hn & H2 & H3). rewrite Hr in H2, H3, Hn.
  specialize (H2 k eq_refl). specialize (H3 H).
  apply float64_nonneg, Qdiv_nonneg.
  - apply float64_nonneg. clear - H2. lra.
  - apply float32_nonneg. clear - H2 H3. lra.
Qed.

Lemma float_difference_nonneg (k : nat) :
  (S k < length sa)%nat -> 0 <= float32 (nth (S k) sa 0 - nth k sa 0).
Proof.
  intro H. apply float32_nonneg.
  assert (H0 : nth k sa 0 <= nth (S k) sa 0) by (apply sa_ascending; lia).
  clear - H0. lra.
Qed.

(** The value is at least the sample below the rank. *)
Lemma float_percentile_at_lower (x : Q) :
  nth (np.searchsorted p x - 1) sa 0 <= Float.percentile_at sa p x.
Proof.
  unfold Float.percentile_at.
  destruct (searchsorted_spec p x) as (Hr & _).
  destruct (np.searchsorted p x) as [|k] eqn:Er.
  - apply Qle_refl.
  - replace (S k - 1)%nat with k by lia.
    destruct (Nat.eqb_spec (S k) (length p)) as [He | Hne].
    + apply sa_ascending. lia.
    + rewrite <- (sample_float64 k) at 1. apply float64_mono.
      assert (H0 : 0 <= float64 (float64 (float64 (x - nth k p 0) /
                                     float32 (nth (S k) p 0 - nth k p 0)) *
                            float32 (nth (S k) sa 0 - nth k sa 0))).
      { apply float64_nonneg, Qmult_le_0_compat.
        - apply float_fraction_nonneg; [exact Er | lia].
        - apply float_difference_nonneg. lia. }
      clear - H0. lra.
Qed.

Lemma float_percentile_at_minimum (x : Q) :
  nth 0 sa 0 <= Float.percentile_at sa p x.
Proof.
  eapply Qle_trans; [| apply float_percentile_at_lower].
  destruct (searchsorted_spec p x) as (Hr & _).
  destruct (Nat.eq_dec (length sa) 0) as [E | N].
  - destruct sa; [| discriminate]. destruct (np.searchsorted p x - 1)%nat; apply Qle_refl.
  - apply sa_ascending. lia.
Qed.

(** Ranks between the same two positions: the value is monotone. *)
Lemma float_percentile_at_monotone (x y : Q) :
  x <= y -> np.searchsorted p x = np.searchsorted p y ->
  Float.percentile_at sa p x <= Float.percentile_at sa p y.
Proof.
  intros Hxy He. unfold Float.percentile_at. rewrite <- He.
  destruct (searchsorted_spec p x) as (Hr & H2 & H3).
  destruct (np.searchsorted p x) as [|k] eqn:Er; [apply Qle_refl |].
  destruct (Nat.eqb_spec (S k) (length p)) as [Hl | Hne]; [apply Qle_refl |].
  specialize (H2 k eq_refl). specialize (H3 ltac:(lia)).
  apply float64_mono.
  assert (Hd : 0 <= float32 (nth (S k) sa 0 - nth k sa 0))
    by (apply float_difference_nonneg; lia).
  assert (Hden : 0 <= / float32 (nth (S k) p 0 - nth k p 0)).
  { apply Qinv_le_0_compat, float32_nonneg. clear - H2 H3. lra. }
  assert (Hnum : float64 (x - nth k p 0) <= float64 (y - nth k p 0))
    by (apply float64_mono; clear - Hxy; lra).
  assert (Hfrac : float64 (float64 (x - nth k p 0) / float32 (nth (S k) p 0 - nth k p 0)) <=
                  float64 (float64 (y - nth k p 0) / float32 (nth (S k) p 0 - nth k p 0))).
  { apply float64_mono. unfold Qdiv. apply Qmult_le_compat_r; assumption. }
  assert (Hprod : float64 (float64 (float64 (x - nth k p 0) /
                                    float32 (nth (S k) p 0 - nth k p 0)) *
                           float32 (nth (S k) sa 0 - nth k sa 0)) <=
                  float64 (float64 (float64 (y - nth k p 0) /
                                    float32 (nth (S k) p 0 - nth k p 0)) *
                           float32 (nth (S k) sa 0 - nth k sa 0))).
  { apply float64_mono. apply Qmult_le_compat_r; assumption. }
  clear - Hprod. lra.
Qed.

End FloatPercentileAt.

(** ** The model on examples

    The positions for three samples of weight one are
    [16.66666603088379, 50.0, 83.33332824707031]; the median of
    [1, 2, 3] is 1.9999999427795454 and their rank 70 is
    2.600000091552748; scaling the weights [1, 3] of the samples [1, 2]
    to [3, 9] moves the median from 1.75 to 1.7500000572204635; weights
    whose sum overflows leave the model. *)
Lemma float_examples :
  Float.positions [1; 1; 1] = [8738133 # 524288; 50; 5461333 # 65536] /\
  Float.weighted_percentile np.argsort [1; 2; 3] (QScalar 50) None None =
    Some (Ok [4503599498521487 # 2251799813685248]) /\
  Float.weighted_percentile np.argsort [1; 2; 3] (QScalar 70) None None =
    Some (Ok [2927339860870053 # 1125899906842624]) /\
  Float.weighted_percentile np.argsort [1; 2] (QScalar 50) (Some [1; 3]) None =
    Some (Ok [7 # 4]) /\
  Float.weighted_percentile np.argsort [1; 2] (QScalar 50) (Some [3; 9]) None =
    Some (Ok [3940649802798213 # 2251799813685248]) /\
  Float.weighted_percentile np.argsort [7; 7] (QScalar 50)
    (Some [inject_Z (2 ^ 127); inject_Z (2 ^ 127)]) None = None.
Proof. repeat split; vm_compute; reflexivity. Qed.

(** * Properties of the function in floating point *)

(** ** Positions and the division of line 86 *)

(** C7 fails in [float32]: for the weights [2^24, 1, 1], all positive, the
    cumulative sums are [2^24, 2^24, 2^24] (adding 1 to [2^24] rounds back
    to [2^24]) and the positions are [50, 100, 100]: the last two are
    equal. *)
Lemma float32_positions_not_strictly_increasing :
  Forall (fun w => 0 < w) (Float.asarray32 [16777216; 1; 1]) /\
  Float.cumsum (Float.asarray32 [16777216; 1; 1]) = [16777216; 16777216; 16777216] /\
  Float.positions (Float.asarray32 [16777216; 1; 1]) = [50; 100; 100] /\
  ~ strictly_ascending (Float.positions (Float.asarray32 [16777216; 1; 1])).
Proof.
  split; [| split; [| split]].
  - repeat constructor.
  - vm_compute. reflexivity.
  - vm_compute. reflexivity.
  - intro H. specialize (H 1%nat 2%nat).
    assert (E : Float.positions (Float.asarray32 [16777216; 1; 1]) = [50; 100; 100])
      by (vm_compute; reflexivity).
    rewrite E in H. simpl in H. specialize (H ltac:(lia)). discriminate H.
Qed.

(** C7, as the code has it: whatever the sorted weights (with finite
    positions), the denominator of line 86 is positive at every index
    [np.searchsorted] returns for an interpolated rank, since the two
    positions that bracket the rank differ and the difference of two
    distinct [float32] does not round to zero. *)
Theorem float32_denominator_positive (sw : list Q) (x : Q) (k : nat) :
  Float.positions_finite sw = true ->
  np.searchsorted (Float.positions sw) x = S k ->
  (S k < length (Float.positions sw))%nat ->
  nth k (Float.positions sw) 0 < nth (S k) (Float.positions sw) 0 /\
  0 < float32 (nth (S k) (Float.positions sw) 0 - nth k (Float.positions sw) 0).
Proof.
  intros _ Hr Hk.
  destruct (searchsorted_spec (Float.positions sw) x) as (_ & H2 & H3).
  rewrite Hr in H2, H3. specialize (H2 k eq_refl). specialize (H3 Hk).
  assert (Hlt : nth k (Float.positions sw) 0 < nth (S k) (Float.positions sw) 0) by lra.
  split; [exact Hlt |].
  rewrite float_positions_length in Hk.
  rewrite (float_positions_nth sw k) in * by lia.
  rewrite (float_positions_nth sw (S k)) in * by lia.
  apply float32_difference_positive, Hlt.
Qed.

Lemma float32_denominator_positive_witness :
  nth 0 (Float.positions [1; 1; 1]) 0 < nth 1 (Float.positions [1; 1; 1]) 0 /\
  0 < float32 (nth 1 (Float.positions [1; 1; 1]) 0 - nth 0 (Float.positions [1; 1; 1]) 0).
Proof.
  apply (float32_denominator_positive [1; 1; 1] 50 0).
  - vm_compute. reflexivity.
  - vm_compute. reflexivity.
  - vm_compute. lia.
Defined.

Section FloatProperties.

Variable argsort : list Q -> list Z.
Hypothesis argsort_sorts : forall l, valid_sorter l (Some (argsort l)).

(** ** Ranks 0 and 100 *)

Lemma float_rank_0_start (sw : list Q) :
  Forall (fun w => 0 <= w) sw -> Forall (fun w => float32 w = w) sw ->
  np.searchsorted (Float.positions sw) 0 = 0%nat.
Proof.
  intros Hn Hf.
  destruct (searchsorted_spec (Float.positions sw) 0) as (_ & H2 & _).
  destruct (np.searchsorted (Float.positions sw) 0) as [|k]; [reflexivity |].
  exfalso. specialize (H2 k eq_refl).
  pose proof (float_position_nonneg sw Hn Hf k). lra.
Qed.

Lemma float_rank_100_start (p : list Q) :
  Forall (fun x => x < 100) p -> np.searchsorted p 100 = length p.
Proof.
  intros Hp.
  destruct (searchsorted_spec p 100) as (H1 & _ & H3).
  destruct (Nat.eq_dec (np.searchsorted p 100) (length p)) as [E | N]; [exact E |].
  exfalso. assert (Hlt : (np.searchsorted p 100 < length p)%nat) by lia.
  specialize (H3 Hlt). rewrite Forall_forall in Hp.
  specialize (Hp _ (nth_In p 0 Hlt)). lra.
Qed.

Lemma float_percentile_at_last (sa p : list Q) (x : Q) :
  (0 < length p)%nat -> np.searchsorted p x = length p ->
  Float.percentile_at sa p x = nth (length p - 1) sa 0.
Proof.
  intros Hp Hr. unfold Float.percentile_at. rewrite Hr.
  destruct (length p) as [|m]; [lia |]. now rewrite Nat.eqb_refl.
Qed.

(** C1, as the code has it.  Rank 0 returns the least [float32] sample of
    non-zero [float32] weight.  Rank 100 returns the greatest one when
    every position of line 77 is below 100. *)
Theorem float32_clamp_at_rank_0_and_100 (a : list Q) (weights : option (list Q))
    (sorter : option (list Z)) :
  let w := default_weights a weights in
  let a32 := Float.asarray32 a in
  let w32 := Float.asarray32 w in
  length a = length w ->
  Forall (fun x => 0 <= x) w ->
  Exists (fun x => 0 < x) w32 ->
  valid_sorter a32 sorter ->
  (Float.weighted_percentile argsort a (QScalar 0) weights sorter <> None ->
   exists v,
     Float.weighted_percentile argsort a (QScalar 0) weights sorter = Some (Ok [v]) /\
     is_minimum v (nonzero_samples a32 w32)) /\
  (Float.weighted_percentile argsort a (QScalar 100) weights sorter <> None ->
   Forall (fun p => p < 100) (Float.partial_sum argsort a weights sorter) ->
   exists v,
     Float.weighted_percentile argsort a (QScalar 100) weights sorter = Some (Ok [v]) /\
     is_maximum v (nonzero_samples a32 w32)).
Proof.
  intros w a32 w32 Hlen Hw Hex Hs.
  destruct (float_wp_prepared argsort argsort_sorts a weights sorter Hlen Hs)
    as (sa & sw & Hp & Hprep & Hl & Hsorted & Hfa & Hfw).
  destruct (float_wp_prepared_nonempty a weights sa sw Hlen Hex Hprep) as [Hsw Hsa].
  pose proof (prepared_nonneg a w sa sw Hlen Hw Hprep) as Hnn.
  assert (Hl32 : length a32 = length w32)
    by (unfold a32, w32; now rewrite !asarray32_length).
  split.
  - intro Hnone.
    rewrite (float_wp_returns argsort a (QScalar 0) weights sorter sa sw);
      try assumption.
    + cbn [np.flatten Float.array64 map]. rewrite float64_0.
      eexists. split; [reflexivity |].
      unfold Float.percentile_at. rewrite (float_rank_0_start sw Hnn Hfw).
      now apply (first_sorted_is_minimum a32 w32 sa sw).
    + split; [discriminate |]. constructor; [split; [apply Qle_refl | discriminate] | constructor].
  - intros Hnone Hp100.
    rewrite (float_wp_returns argsort a (QScalar 100) weights sorter sa sw);
      try assumption.
    + cbn [np.flatten Float.array64 map]. rewrite float64_100.
      eexists. split; [reflexivity |].
      unfold Float.partial_sum in Hp100. rewrite Hp in Hp100.
      rewrite float_percentile_at_last.
      * rewrite float_positions_length, <- Hl.
        now apply (last_sorted_is_maximum a32 w32 sa sw).
      * rewrite float_positions_length. destruct sw; [congruence | simpl; lia].
      * apply float_rank_100_start, Hp100.
    + split; [discriminate |]. constructor; [split; [discriminate | apply Qle_refl] | constructor].
Qed.

(** ** The range of the values *)

(** C10, as the code has it: no value lies below the least [float32]
    sample of non-zero [float32] weight. *)
Theorem float32_result_at_least_minimum (a : list Q) (q : rank_arg)
    (weights : option (list Q)) (sorter : option (list Z)) (vs : list Q) :
  let a32 := Float.asarray32 a in
  let w32 := Float.asarray32 (default_weights a weights) in
  valid_sorter a32 sorter ->
  Float.weighted_percentile argsort a q weights sorter = Some (Ok vs) ->
  length vs = length (np.flatten q) /\
  exists m, is_minimum m (nonzero_samples a32 w32) /\ Forall (fun v => m <= v) vs.
Proof.
  intros a32 w32 Hs H.
  apply float_wp_ok_inv in H. cbv zeta in H.
  destruct H as (sa & sw & Hlen & Hp & Hl & Hsw & _ & _ & _ & ->).
  destruct (float_wp_prepared argsort argsort_sorts a weights sorter Hlen Hs)
    as (sa' & sw' & Hp' & Hprep & _ & Hsorted & Hfa & Hfw).
  rewrite Hp in Hp'. inversion Hp'; subst sa' sw'. clear Hp'.
  assert (Hl32 : length a32 = length w32)
    by (unfold a32, w32; now rewrite !asarray32_length).
  assert (Hsa : sa <> []) by (intro E; subst sa; destruct sw; [congruence | discriminate]).
  split; [unfold Float.array64; now rewrite !length_map |].
  exists (nth 0 sa 0). split.
  - now apply (first_sorted_is_minimum a32 w32 sa sw).
  - rewrite Forall_map. apply Forall_forall. intros x _.
    apply float_percentile_at_minimum.
    + now rewrite float_positions_length.
    + now apply ascending_StronglySorted.
    + exact Hfa.
Qed.

(** ** Monotonicity in the rank *)

(** C3, as the code has it: of two ranks that [np.searchsorted] places
    between the same two positions, the greater has the greater or equal
    value, for any weights. *)
Theorem float32_monotone_between_two_positions (a : list Q) (q1 q2 : Q)
    (weights : option (list Q)) (sorter : option (list Z)) (v1 v2 : Q) :
  let p := Float.partial_sum argsort a weights sorter in
  valid_sorter (Float.asarray32 a) sorter ->
  Float.weighted_percentile argsort a (QArray [q1; q2]) weights sorter =
    Some (Ok [v1; v2]) ->
  q1 <= q2 ->
  np.searchsorted p (float64 q1) = np.searchsorted p (float64 q2) ->
  v1 <= v2.
Proof.
  intros p Hs H Hq He.
  apply float_wp_ok_inv in H. cbv zeta in H.
  destruct H as (sa & sw & Hlen & Hp & Hl & Hsw & _ & _ & _ & Hv).
  destruct (float_wp_prepared argsort argsort_sorts a weights sorter Hlen Hs)
    as (sa' & sw' & Hp' & Hprep & _ & Hsorted & Hfa & Hfw).
  rewrite Hp in Hp'. inversion Hp'; subst sa' sw'. clear Hp'.
  unfold p, Float.partial_sum in He. rewrite Hp in He.
  cbn [np.flatten Float.array64 map] in Hv. inversion Hv; subst v1 v2.
  apply float_percentile_at_monotone.
  - now rewrite float_positions_length.
  - now apply ascending_StronglySorted.
  - apply float64_mono, Hq.
  - exact He.
Qed.

(** ** A supplied sorter *)

Lemma asarray32_ties_identical (a w : list Q) :
  length a = length w ->
  ties_share_weight (Float.asarray32 a) (Float.asarray32 w) ->
  ties_identical (Float.asarray32 a) (Float.asarray32 w).
Proof.
  intros Hlen H i j Hi Hj E.
  rewrite asarray32_length in Hi, Hj.
  specialize (H i j). rewrite asarray32_length in H. specialize (H Hi Hj E).
  unfold Float.asarray32 in *.
  rewrite (nth_map_in _ a i 0 0) in * by exact Hi.
  rewrite (nth_map_in _ a j 0 0) in * by exact Hj.
  rewrite (nth_map_in _ w i 0 0) in * by lia.
  rewrite (nth_map_in _ w j 0 0) in * by lia.
  split; apply float32_eq; assumption.
Qed.

(** C6, as the code has it: a sorter under which the [float32] samples
    are ascending gives the result of the call without sorter when
    samples that are equal as [float32] have weights that are equal as
    [float32]. *)
Theorem float32_sorter_agrees_when_ties_share_weight (a : list Q) (q : rank_arg)
    (weights : option (list Q)) (s : list Z) :
  let w := default_weights a weights in
  length a = length w ->
  valid_sorter (Float.asarray32 a) (Some s) ->
  ties_share_weight (Float.asarray32 a) (Float.asarray32 w) ->
  Float.weighted_percentile argsort a q weights (Some s) =
  Float.weighted_percentile argsort a q weights None.
Proof.
  intros w Hlen Hs Hties.
  assert (Hl : length (Float.asarray32 a) = length (Float.asarray32 w))
    by (now rewrite !asarray32_length).
  destruct (float_prepare_valid argsort argsort_sorts _ _ (Some s) Hl Hs)
    as (sa1 & sw1 & Hp1 & Hprep1).
  destruct (float_prepare_valid argsort argsort_sorts _ _ None Hl I)
    as (sa2 & sw2 & Hp2 & Hprep2).
  destruct (prepared_unique _ _ _ _ _ _ Hl (asarray32_ties_identical a w Hlen Hties)
              Hprep1 Hprep2) as [-> ->].
  unfold Float.weighted_percentile. fold w. rewrite Hp1, Hp2. reflexivity.
Qed.

End FloatProperties.

(** ** The shape of the result *)

(** C2: a call on one number that returns, returns an array of shape
    (1,), not a scalar. *)
Theorem scalar_rank_returns_array (argsort : list Q -> list Z) (a : list Q) (x : Q)
    (weights : option (list Q)) (sorter : option (list Z)) (vs : list Q) :
  Float.weighted_percentile argsort a (QScalar x) weights sorter = Some (Ok vs) ->
  ndarray_shape vs = [1%nat] /\ ndarray_shape vs <> rank_shape (QScalar x).
Proof.
  intro H. apply float_wp_ok_inv in H. cbv zeta in H.
  destruct H as (sa & sw & _ & _ & _ & _ & _ & _ & _ & ->).
  split; [reflexivity | discriminate].
Qed.

(** ** Instances and counterexamples *)

Lemma float32_clamp_at_rank_0_and_100_witness :
  (exists v,
     Float.weighted_percentile np.argsort [3; 1; 2] (QScalar 0) None None = Some (Ok [v]) /\
     is_minimum v (nonzero_samples (Float.asarray32 [3; 1; 2])
                                   (Float.asarray32 (default_weights [3; 1; 2] None)))) /\
  (exists v,
     Float.weighted_percentile np.argsort [3; 1; 2] (QScalar 100) None None = Some (Ok [v]) /\
     is_maximum v (nonzero_samples (Float.asarray32 [3; 1; 2])
                                   (Float.asarray32 (default_weights [3; 1; 2] None)))).
Proof.
  destruct (float32_clamp_at_rank_0_and_100 np.argsort argsort_valid_sorter
              [3; 1; 2] None None) as [H0 H100].
  - reflexivity.
  - repeat constructor; discriminate.
  - apply Exists_cons_hd. vm_compute. reflexivity.
  - exact I.
  - split.
    + apply H0. vm_compute. discriminate.
    + apply H100.
      * vm_compute. discriminate.
      * vm_compute. repeat constructor.
Defined.

(** C1 as stated fails at rank 100: for the samples [1, 2, 3] with the
    weights [2^24, 1, 1] the positions are [50, 100, 100], the search for
    100 stops at the second position and line 88 returns 2, not the
    maximum 3.  (The samples are distinct: every sort orders them the
    same.) *)
Lemma float32_rank_100_misses_maximum :
  Forall (fun x => 0 < x) [16777216; 1; 1] /\
  Float.partial_sum np.argsort [1; 2; 3] (Some [16777216; 1; 1]) None = [50; 100; 100] /\
  Float.weighted_percentile np.argsort [1; 2; 3] (QScalar 100)
    (Some [16777216; 1; 1]) None = Some (Ok [2]) /\
  is_maximum 3 (nonzero_samples (Float.asarray32 [1; 2; 3])
                                (Float.asarray32 [16777216; 1; 1])) /\
  2 < 3.
Proof.
  split; [repeat constructor |].
  split; [vm_compute; reflexivity |].
  split; [vm_compute; reflexivity |].
  split; [| reflexivity].
  assert (E : nonzero_samples (Float.asarray32 [1; 2; 3])
                (Float.asarray32 [16777216; 1; 1]) = [1; 2; 3])
    by (vm_compute; reflexivity).
  rewrite E. split; [simpl; tauto |].
  intros x [<- | [<- | [<- | []]]]; discriminate.
Qed.

Lemma float32_result_at_least_minimum_witness :
  length [10; 25 # 2; 20] = length (np.flatten (QArray [0; 50; 100])) /\
  exists m,
    is_minimum m (nonzero_samples (Float.asarray32 [10; 20])
                    (Float.asarray32 (default_weights [10; 20] (Some [3; 1])))) /\
    Forall (fun v => m <= v) [10; 25 # 2; 20].
Proof.
  apply (float32_result_at_least_minimum np.argsort argsort_valid_sorter
           [10; 20] (QArray [0; 50; 100]) (Some [3; 1]) None).
  - exact I.
  - vm_compute. reflexivity.
Defined.

(** C10 as stated fails above: for the samples [-3, 2^24] with default
    weights the positions are [25, 75]; at rank 75 the fraction is 1 and
    the difference [2^24 + 3] of the two samples rounds to the [float32]
    [2^24 + 4], so line 88 returns [-3 + 2^24 + 4 = 2^24 + 1], above the
    maximum [2^24]. *)
Lemma float32_value_above_maximum :
  Float.weighted_percentile np.argsort [-3; 16777216] (QScalar 75) None None =
    Some (Ok [16777217]) /\
  float32 (16777216 - -3) = 16777220 /\
  is_maximum 16777216 (nonzero_samples (Float.asarray32 [-3; 16777216])
                         (Float.asarray32 (default_weights [-3; 16777216] None))) /\
  16777216 < 16777217.
Proof.
  split; [vm_compute; reflexivity |].
  split; [vm_compute; reflexivity |].
  split; [| reflexivity].
  assert (E : nonzero_samples (Float.asarray32 [-3; 16777216])
                (Float.asarray32 (default_weights [-3; 16777216] None)) =
              [-3; 16777216])
    by (vm_compute; reflexivity).
  rewrite E. split; [simpl; tauto |].
  intros x [<- | [<- | []]]; discriminate.
Qed.

Lemma float32_monotone_between_two_positions_witness : 25 # 2 <= 35 # 2.
Proof.
  apply (float32_monotone_between_two_positions np.argsort argsort_valid_sorter
           [10; 20] 50 75 (Some [3; 1]) None (25 # 2) (35 # 2)).
  - exact I.
  - vm_compute. reflexivity.
  - discriminate.
  - vm_compute. reflexivity.
Defined.

(** C3 as stated fails across positions: for the samples
    [-3, 2^24, 2^24 + 2, 2^24 + 4] with default (uniform) weights the
    positions are [12.5, 37.5, 62.5, 87.5].  Rank 37.5 is the second
    position: the fraction is 1 and the rounded difference of the first
    two samples gives [2^24 + 1]; rank 43.75 lies a quarter of the way
    from the second to the third sample and gives [2^24 + 0.5]. *)
Lemma float32_rank_order_reversed :
  Float.weighted_percentile np.argsort
    [-3; 16777216; 16777218; 16777220] (QArray [75 # 2; 175 # 4]) None None =
    Some (Ok [16777217; 33554433 # 2]) /\
  75 # 2 <= 175 # 4 /\
  33554433 # 2 < 16777217.
Proof.
  split; [vm_compute; reflexivity |].
  split; [discriminate | reflexivity].
Qed.

Lemma float32_sorter_agrees_when_ties_share_weight_witness :
  Float.weighted_percentile np.argsort [1; 1; 2] (QArray [10; 50; 80])
    (Some [3; 3; 1]) (Some [1; 0; 2]%Z) =
  Float.weighted_percentile np.argsort [1; 1; 2] (QArray [10; 50; 80])
    (Some [3; 3; 1]) None.
Proof.
  assert (Ea : Float.asarray32 [1; 1; 2] = [1; 1; 2]) by (vm_compute; reflexivity).
  assert (Ew : Float.asarray32 (default_weights [1; 1; 2] (Some [3; 3; 1])) = [3; 3; 1])
    by (vm_compute; reflexivity).
  apply (float32_sorter_agrees_when_ties_share_weight np.argsort argsort_valid_sorter
           [1; 1; 2] (QArray [10; 50; 80]) (Some [3; 3; 1]) [1; 0; 2]%Z).
  - reflexivity.
  - rewrite Ea. split.
    + apply perm_swap.
    + apply ascending_StronglySorted. repeat constructor; discriminate.
  - rewrite Ea, Ew. intros i j Hi Hj.
    destruct i as [|[|[|i]]]; [| | |simpl in Hi; lia];
      (destruct j as [|[|[|j]]]; [| | |simpl in Hj; lia]);
      simpl; intro E; try reflexivity; discriminate.
Defined.

(** C6 as stated fails on a tie with different weights.  Both
    [[1; 0; 2]] and [[0; 1; 2]] sort the samples [[1; 1; 2]]; at rank 80
    the first gives 1.5 and the second 1.75: whatever order the sort of
    line 65 picks for the tie, one of the two sorters disagrees with the
    call without sorter.  The conversion of line 51 makes ties of its
    own: the samples [2^24 + 1, 2^24, 1] are distinct and [[2; 1; 0]]
    sorts them, but the first two are one [float32]; with the weights
    [3, 1, 1] the call with this sorter gives 8388608.5 at rank 20 and
    the call without sorter, sorting stably, 4194304.75. *)
Lemma float32_tie_order_changes_result :
  (valid_sorter [1; 1; 2] (Some [1; 0; 2]%Z) /\
   valid_sorter [1; 1; 2] (Some [0; 1; 2]%Z) /\
   Float.weighted_percentile np.argsort [1; 1; 2] (QScalar 80) (Some [1; 3; 1])
     (Some [1; 0; 2]%Z) = Some (Ok [3 # 2]) /\
   Float.weighted_percentile np.argsort [1; 1; 2] (QScalar 80) (Some [1; 3; 1])
     (Some [0; 1; 2]%Z) = Some (Ok [7 # 4]) /\
   ~ 3 # 2 == 7 # 4) /\
  (valid_sorter [16777217; 16777216; 1] (Some [2; 1; 0]%Z) /\
   Float.asarray32 [16777217; 16777216; 1] = [16777216; 16777216; 1] /\
   Float.weighted_percentile np.argsort [16777217; 16777216; 1] (QScalar 20)
     (Some [3; 1; 1]) (Some [2; 1; 0]%Z) = Some (Ok [16777217 # 2]) /\
   Float.weighted_percentile np.argsort [16777217; 16777216; 1] (QScalar 20)
     (Some [3; 1; 1]) None = Some (Ok [16777219 # 4]) /\
   ~ 16777217 # 2 == 16777219 # 4).
Proof.
  split.
  - split; [| split; [| split; [| split]]].
    + split; [apply perm_swap |].
      apply ascending_StronglySorted. repeat constructor; discriminate.
    + split; [apply Permutation_refl |].
      apply ascending_StronglySorted. repeat constructor; discriminate.
    + vm_compute. reflexivity.
    + vm_compute. reflexivity.
    + discriminate.
  - split; [| split; [| split; [| split]]].
    + split.
      * apply Permutation_trans with [1; 2; 0]%Z; [apply perm_swap |].
        apply Permutation_trans with [1; 0; 2]%Z; [apply perm_skip, perm_swap |].
        apply perm_swap.
      * apply ascending_StronglySorted. repeat constructor; discriminate.
    + vm_compute. reflexivity.
    + vm_compute. reflexivity.
    + vm_compute. reflexivity.
    + discriminate.
Qed.

Lemma scalar_rank_returns_array_witness :
  ndarray_shape [4503599498521487 # 2251799813685248] = [1%nat] /\
  ndarray_shape [4503599498521487 # 2251799813685248] <> rank_shape (QScalar 50).
Proof.
  apply (scalar_rank_returns_array np.argsort [1; 2; 3] 50 None None).
  vm_compute. reflexivity.
Defined.

(** * Further properties of the function in floating point *)

(** ** The checks a returning call has passed *)





(** ** A batch of ranks *)



(** ** Samples that are all equal *)

Section FloatEqualSamples.

Variable argsort : list Q -> list Z.
Hypothesis argsort_sorts : forall l, valid_sorter l (Some (argsort l)).



End FloatEqualSamples.


(** ** The conversion of line 51 and the sorter *)

Lemma asarray32_nth (a : list Q) (k : nat) :
  nth k (Float.asarray32 a) 0 = float32 (float64 (nth k a 0)).
Proof.
  unfold Float.asarray32.
  change 0 with (float32 (float64 0)) at 1.
  apply (map_nth (fun x => float32 (float64 x))).
Qed.

(** X14. A sorter that sorts the samples sorts the [float32] samples:
    the conversion does not reverse the order of two numbers. *)
Theorem float32_conversion_keeps_sorter_valid (a : list Q) (sorter : option (list Z)) :
  valid_sorter a sorter -> valid_sorter (Float.asarray32 a) sorter.
Proof.
  destruct sorter as [s|]; [| trivial].
  intros [Hperm Hasc]. split.
  - now rewrite asarray32_length.
  - intros i j Hij. rewrite length_map in Hij.
    specialize (Hasc i j). rewrite length_map in Hasc. specialize (Hasc Hij).
    rewrite (nth_map_in _ s i 0%Z 0), (nth_map_in _ s j 0%Z 0) in Hasc by lia.
    rewrite (nth_map_in _ s i 0%Z 0), (nth_map_in _ s j 0%Z 0) by lia.
    rewrite !asarray32_nth. apply float32_mono, float64_mono, Hasc.
Qed.

Lemma float32_conversion_keeps_sorter_valid_witness :
  valid_sorter (Float.asarray32 [16777217; 16777216; 1]) (Some [2; 1; 0]%Z).
Proof.
  apply (float32_conversion_keeps_sorter_valid [16777217; 16777216; 1] (Some [2; 1; 0]%Z)).
  split.
  - apply Permutation_trans with [1; 2; 0]%Z; [apply perm_swap |].
    apply Permutation_trans with [1; 0; 2]%Z; [apply perm_skip, perm_swap |].
    apply perm_swap.
  - apply ascending_StronglySorted. repeat constructor; discriminate.
Defined.

(** ** No rank at all *)

(** X15. An empty sequence of ranks is refused by [q.max()] of line
    48. *)
Theorem float32_empty_rank_sequence_raises (argsort : list Q -> list Z) (a : list Q)
    (weights : option (list Q)) (sorter : option (list Z)) :
  Float.weighted_percentile argsort a (QArray []) weights sorter =
  Some (Raise (ValueError msg_zero_size_max)).
Proof. reflexivity. Qed.

(** ** Weights that are zero as [float32] *)

Lemma float_prepare_raises argsort a weights sorter e :
  Float.prepare argsort a weights sorter = Raise e -> e = IndexError.
Proof.
  destruct sorter as [s|]; [apply (prepare_raises a weights (Some s)) |].
  unfold Float.prepare. cbn [bind fst snd].
  match goal with |- context [np.take ?l ?i] =>
    destruct (np.take l i) eqn:Ea end; cbn [bind].
  - match goal with |- context [np.take ?l ?i] =>
      destruct (np.take l i) eqn:Ew end; cbn [bind]; [discriminate|].
    intro H. eapply take_raises. rewrite Ew. f_equal. congruence.
  - intro H. eapply take_raises. rewrite Ea. f_equal. congruence.
Qed.

Lemma float_prepare_all_zero argsort a weights sorter sa sw :
  Forall (fun x => x == 0) weights ->
  Float.prepare argsort a weights sorter = Ok (sa, sw) -> sw = [].
Proof.
  intros Hz Ep. unfold Float.prepare in Ep. destruct sorter as [s|].
  - destruct (np.take a s) as [a'|]; cbn [bind] in Ep; [|discriminate].
    destruct (np.take weights s) as [w'|] eqn:Ew;
      cbn [bind fst snd] in Ep; [|discriminate].
    inversion Ep. apply compress_all_zero.
    eapply take_Forall; eassumption.
  - cbn [bind fst snd] in Ep.
    rewrite !compress_all_zero in Ep by assumption.
    destruct (np.take [] (argsort [])) as [r|] eqn:Et; cbn [bind] in Ep; [| discriminate].
    inversion Ep. subst.
    pose proof (take_Forall (fun _ : Q => False) [] _ _ (Forall_nil _) Et) as Hr.
    destruct sw as [|x t]; [reflexivity | inversion Hr; contradiction].
Qed.

(** X16. When every weight is zero as a [float32] (zero, or too small
    for the format), a call on valid ranks and arrays of one length that
    stays within the finite floats raises the [IndexError] of line 74. *)
Theorem float32_zero_weights_raise_index_error (argsort : list Q -> list Z)
    (a : list Q) (q : rank_arg) (weights : option (list Q)) (sorter : option (list Z)) :
  let w := default_weights a weights in
  valid_ranks q ->
  length a = length w ->
  Forall (fun x => float32 (float64 x) == 0) w ->
  Float.weighted_percentile argsort a q weights sorter <> None ->
  Float.weighted_percentile argsort a q weights sorter = Some (Raise IndexError).
Proof.
  intros w Hq Hlen Hz Hnone.
  rewrite float_wp_validated in Hnone |- * by exact Hq.
  cbv zeta in *. fold w in Hnone |- *.
  destruct (negb (forallb finite64 _)); [congruence |].
  apply Nat.eqb_eq in Hlen. rewrite Hlen in *. cbn [negb] in *.
  destruct (negb (forallb finite32 _)); [congruence |].
  assert (Hz32 : Forall (fun x => x == 0) (Float.asarray32 w)).
  { unfold Float.asarray32. rewrite Forall_map. exact Hz. }
  destruct (Float.prepare argsort (Float.asarray32 a) (Float.asarray32 w) sorter)
    as [[sa sw] | e] eqn:Ep.
  - rewrite (float_prepare_all_zero _ _ _ _ _ _ Hz32 Ep). reflexivity.
  - do 2 f_equal. eapply float_prepare_raises. exact Ep.
Qed.

Lemma float32_zero_weights_raise_index_error_witness :
  Float.weighted_percentile np.argsort [1; 2] (QScalar 50)
    (Some [1 # 2 ^ 150; 1 # 2 ^ 150]) None = Some (Raise IndexError).
Proof.
  apply (float32_zero_weights_raise_index_error np.argsort [1; 2] (QScalar 50)
           (Some [1 # 2 ^ 150; 1 # 2 ^ 150]) None).
  - split; [discriminate |]. repeat constructor; discriminate.
  - reflexivity.
  - repeat constructor; vm_compute; reflexivity.
  - vm_compute. discriminate.
Defined.

(** ** Validation *)



(** ** Default weights: rank 100 *)

(** The error of one rounding. *)
Lemma rne_upper (z : Q) : inject_Z (rne z) <= z + (1 # 2).
Proof.
  unfold rne. pose proof (Qlt_floor z) as Hf. rewrite inject_Z_plus in Hf.
  change (inject_Z 1) with 1 in Hf.
  destruct (Qcompare (z - inject_Z (Qfloor z)) (1 # 2)) eqn:C.
  - rewrite <- Qeq_alt in C. destruct (Z.even (Qfloor z)).
    + lra.
    + rewrite inject_Z_plus. change (inject_Z 1) with 1. lra.
  - rewrite <- Qlt_alt in C. pose proof (Qfloor_le z). lra.
  - rewrite <- Qgt_alt in C. rewrite inject_Z_plus. change (inject_Z 1) with 1. lra.
Qed.

Lemma round_pos_relative_error (prec emin : Z) (x : Q) :
  (1 <= prec)%Z -> pow2 (emin + prec - 1) <= x ->
  round_pos prec emin x <= x + x * pow2 (- prec).
Proof.
  intros Hprec Hx.
  assert (Hx0 : 0 < x) by (pose proof (pow2_pos (emin + prec - 1)); lra).
  destruct (ilog2_spec x Hx0) as [Hl1 Hl2].
  assert (Hl : (emin + prec - 1 <= ilog2 x)%Z).
  { assert (emin + prec - 1 < ilog2 x + 1)%Z by (apply pow2_lt_inv; lra). lia. }
  assert (He : cexp prec emin x = (ilog2 x - (prec - 1))%Z) by (unfold cexp; lia).
  unfold round_pos. rewrite He. set (e := (ilog2 x - (prec - 1))%Z).
  pose proof (pow2_pos e) as Hp.
  pose proof (rne_upper (x / pow2 e)) as Hr.
  assert (Hhalf : pow2 e * (1 # 2) <= x * pow2 (- prec)).
  { assert (E : pow2 e == pow2 (ilog2 x) * pow2 (- prec) * 2).
    { unfold e. replace (ilog2 x - (prec - 1))%Z with (ilog2 x + (- prec) + 1)%Z by lia.
      rewrite !pow2_add. change (pow2 1) with 2. reflexivity. }
    rewrite E. pose proof (pow2_pos (- prec)).
    generalize dependent (pow2 (ilog2 x)). generalize dependent (pow2 (- prec)).
    intros. nra. }
  assert (Hm : inject_Z (rne (x / pow2 e)) * pow2 e <= (x / pow2 e + (1 # 2)) * pow2 e).
  { apply Qmult_le_compat_r; lra. }
  assert (E2 : (x / pow2 e + (1 # 2)) * pow2 e == x + pow2 e * (1 # 2)) by (field; lra).
  lra.
Qed.

Lemma float32_relative_error (x : Q) :
  pow2 (-126) <= x -> float32 x <= x * (1 + (1 # 16777216)).
Proof.
  intro Hx.
  assert (Hx0 : 0 < x) by (pose proof (pow2_pos (-126)); lra).
  unfold float32. rewrite (round_positive 24 (-149) x Hx0), Qred_correct.
  pose proof (round_pos_relative_error 24 (-149) x ltac:(lia) Hx) as H.
  change (pow2 (Z.opp 24)) with (1 # 16777216) in H. lra.
Qed.

(** Integers and half-integers of 24 bits are [float32]. *)
Lemma float32_integer (m : Z) :
  (Z.abs m <= 2 ^ 24)%Z -> float32 (inject_Z m) == inject_Z m.
Proof.
  intro H. apply round_fixes; [lia |].
  exists m, 0%Z. split; [change (pow2 0) with 1; ring | split; [exact H | lia]].
Qed.

Lemma float32_half_integer (m : Z) :
  (Z.abs m <= 2 ^ 24)%Z -> float32 (inject_Z m * (1 # 2)) == inject_Z m * (1 # 2).
Proof.
  intro H. apply round_fixes; [lia |].
  exists m, (-1)%Z. split; [change (pow2 (-1)) with (1 # 2); ring | split; [exact H | lia]].
Qed.

(** Weights that are all one: the cumulative sums are exact up to
    [2^24]. *)
Lemma float_cumsum_ones (sw : list Q) (k : nat) :
  Forall (fun w => w = 1) sw -> (Z.of_nat (length sw) <= 2 ^ 24)%Z ->
  (k < length sw)%nat ->
  nth k (Float.cumsum sw) 0 == inject_Z (Z.of_nat k + 1).
Proof.
  intros Hone Hn. rewrite Forall_forall in Hone.
  induction k as [|k IH]; intro Hk.
  - rewrite float_cumsum_head, (Hone (nth 0 sw 0)) by (apply nth_In, Hk). reflexivity.
  - rewrite float_cumsum_step by exact Hk.
    rewrite (Hone (nth (S k) sw 0)) by (apply nth_In, Hk).
    specialize (IH ltac:(lia)).
    rewrite (float32_proper _ (inject_Z (Z.of_nat (S k) + 1))).
    + apply float32_integer. lia.
    + rewrite IH. rewrite Nat2Z.inj_succ, <- Z.add_1_r, !inject_Z_plus. reflexivity.
Qed.

Lemma float_positions_ones (sw : list Q) (k : nat) :
  Forall (fun w => w = 1) sw ->
  (Z.of_nat (length sw) <= 2 ^ 20)%Z -> (k < length sw)%nat ->
  nth k (Float.positions sw) 0 <= 100 - (1 # 131072).
Proof.
  intros Hone Hn Hk.
  set (n := Z.of_nat (length sw)) in *.
  assert (Hn1 : (1 <= n)%Z) by (unfold n; lia).
  assert (HT : Float.total_weight sw == inject_Z n).
  { unfold Float.total_weight. rewrite float_cumsum_ones; try assumption; try lia.
    unfold n. replace (Z.of_nat (length sw - 1) + 1)%Z with (Z.of_nat (length sw)) by lia.
    reflexivity. }
  rewrite float_positions_nth by exact Hk.
  rewrite Forall_forall in Hone.
  rewrite (Hone (nth k sw 0)) by (apply nth_In, Hk).
  assert (Eh : float32 (1 / 2) = 1 # 2) by (vm_compute; reflexivity).
  rewrite Eh.
  assert (Ec : float32 (nth k (Float.cumsum sw) 0 - (1 # 2)) ==
               inject_Z (2 * Z.of_nat k + 1) * (1 # 2)).
  { rewrite (float32_proper _ (inject_Z (2 * Z.of_nat k + 1) * (1 # 2))).
    - apply float32_half_integer. lia.
    - rewrite float_cumsum_ones by (rewrite ?Forall_forall; try assumption; lia).
      rewrite !inject_Z_plus, inject_Z_mult. change (inject_Z 2) with 2.
      change (inject_Z 1) with 1. ring. }
  set (c := Float.scale (Float.total_weight sw)).
  assert (Hc : c = float32 (100 / inject_Z n)).
  { unfold c, Float.scale. apply float32_proper. rewrite HT. reflexivity. }
  assert (HN : 1 <= inject_Z n) by (change 1 with (inject_Z 1); rewrite <- Zle_Qle; exact Hn1).
  assert (HN2 : inject_Z n <= 1048576).
  { change 1048576 with (inject_Z (2 ^ 20)). rewrite <- Zle_Qle. exact Hn. }
  assert (Hq : 25 # 262144 <= 100 / inject_Z n).
  { apply Qle_shift_div_l; lra. }
  assert (Hc_lo : 25 # 262144 <= c).
  { rewrite Hc. assert (E : float32 (25 # 262144) = 25 # 262144) by (vm_compute; reflexivity).
    assert (E' : 25 # 262144 == float32 (25 # 262144)) by (rewrite E; reflexivity).
    rewrite E' at 1. apply float32_mono, Hq. }
  assert (Hc_hi : c * inject_Z n <= 100 * (1 + (1 # 16777216))).
  { rewrite Hc.
    assert (H126 : pow2 (-126) <= 100 / inject_Z n).
    { assert (pow2 (-126) <= 25 # 262144) by (vm_compute; discriminate). lra. }
    pose proof (float32_relative_error _ H126) as Hr.
    assert (E : 100 / inject_Z n * inject_Z n == 100) by (field; lra).
    assert (float32 (100 / inject_Z n) * inject_Z n <=
            100 / inject_Z n * (1 + (1 # 16777216)) * inject_Z n)
      by (apply Qmult_le_compat_r; lra).
    generalize dependent (100 / inject_Z n). intros. nra. }
  assert (HK : inject_Z (2 * Z.of_nat k + 1) * (1 # 2) <= inject_Z n - (1 # 2)).
  { assert (Hle : inject_Z (2 * Z.of_nat k + 1) + inject_Z 1 <= inject_Z 2 * inject_Z n)
      by (rewrite <- inject_Z_plus, <- inject_Z_mult, <- Zle_Qle; unfold n; lia).
    change (inject_Z 2) with 2 in Hle. change (inject_Z 1) with 1 in Hle.
    lra. }
  assert (E100 : float32 (100 - (1 # 131072)) = 100 - (1 # 131072)) by (vm_compute; reflexivity).
  assert (E100' : 100 - (1 # 131072) == float32 (100 - (1 # 131072)))
    by (rewrite E100; reflexivity).
  rewrite E100'. apply float32_mono.
  rewrite Ec.
  set (y := inject_Z (2 * Z.of_nat k + 1)) in *.
  set (N := inject_Z n) in *.
  assert (Hcy : c * (y * (1 # 2)) <= c * (N - (1 # 2))) by (apply Qmult_le_l; lra).
  clearbody y N c. clear - Hc_lo Hc_hi HN HN2 Hcy.
  nra.
Qed.

Lemma asarray32_ones (a : list Q) :
  Forall (fun w => w = 1) (Float.asarray32 (np.ones_like a)).
Proof.
  unfold Float.asarray32, np.ones_like. rewrite map_map, Forall_map.
  apply Forall_forall. intros x _. vm_compute. reflexivity.
Qed.

Lemma compress_all_nonzero {A : Type} (w : list Q) (l : list A) :
  Forall (fun x => x = 1) w -> length l = length w ->
  np.compress (map nonzero w) l = l.
Proof.
  intro H. revert l. induction H as [|x w Hx Hw IH]; intros [|y l] Hl;
    simpl in *; try reflexivity; try discriminate.
  subst x. cbn. f_equal. apply IH. lia.
Qed.

Section FloatDefaultWeights.

Variable argsort : list Q -> list Z.
Hypothesis argsort_sorts : forall l, valid_sorter l (Some (argsort l)).

(** X18. With default weights and at most [2^20] samples, rank 100
    returns the greatest [float32] sample: every position of line 77 is
    at most [100 - 2^-17], the [float32] below 100. *)
Theorem float32_rank_100_default_weights (a : list Q) (sorter : option (list Z)) :
  a <> [] ->
  (Z.of_nat (length a) <= 2 ^ 20)%Z ->
  valid_sorter (Float.asarray32 a) sorter ->
  Float.weighted_percentile argsort a (QScalar 100) None sorter <> None ->
  exists v,
    Float.weighted_percentile argsort a (QScalar 100) None sorter = Some (Ok [v]) /\
    is_maximum v (Float.asarray32 a).
Proof.
  intros Hne Hn Hs Hnone.
  assert (Hlen : length a = length (default_weights a None))
    by (cbn [default_weights]; unfold np.ones_like; now rewrite length_map).
  destruct (float_wp_prepared argsort argsort_sorts a None sorter Hlen Hs)
    as (sa & sw & Hp & Hprep & Hl & Hsorted & Hfa & Hfw).
  cbn [default_weights] in *.
  pose proof (asarray32_ones a) as Hones.
  assert (Hl32 : length (Float.asarray32 a) = length (Float.asarray32 (np.ones_like a)))
    by (now rewrite !asarray32_length).
  pose proof (prepared_weights _ _ _ _ Hl32 Hprep) as Hpw.
  rewrite (compress_all_nonzero _ _ Hones eq_refl) in Hpw.
  pose proof (prepared_samples _ _ _ _ Hl32 Hprep) as Hps.
  unfold nonzero_samples in Hps.
  rewrite (compress_all_nonzero _ _ Hones Hl32) in Hps.
  assert (Hsw1 : Forall (fun w => w = 1) sw).
  { eapply Permutation_Forall; [apply Permutation_sym, Hpw | exact Hones]. }
  assert (Hlsw : length sw = length a).
  { rewrite (Permutation_length Hpw), asarray32_length. symmetry. exact Hlen. }
  assert (Hsw : sw <> []) by (intro E; subst sw; destruct a; [congruence | discriminate]).
  assert (Hp100 : Forall (fun p => p < 100) (Float.positions sw)).
  { apply Forall_forall. intros p Hin.
    destruct (In_nth _ _ 0 Hin) as (k & Hk & <-).
    rewrite float_positions_length in Hk.
    pose proof (float_positions_ones sw k Hsw1 ltac:(lia) Hk). lra. }
  rewrite (float_wp_returns argsort a (QScalar 100) None sorter sa sw);
    try assumption.
  - cbn [np.flatten Float.array64 map]. rewrite float64_100.
    eexists. split; [reflexivity |].
    rewrite float_percentile_at_last.
    + rewrite float_positions_length, <- Hl.
      destruct (last_sorted_is_maximum _ _ sa sw Hl32 Hprep) as [Hin Hmax].
      { intro E. subst sa. destruct sw; [congruence | discriminate]. }
      unfold nonzero_samples in Hin, Hmax.
      rewrite (compress_all_nonzero _ _ Hones Hl32) in Hin, Hmax.
      split; assumption.
    + rewrite float_positions_length. destruct sw; [congruence | simpl; lia].
    + apply float_rank_100_start, Hp100.
  - split; [discriminate |]. constructor; [split; [discriminate | apply Qle_refl] | constructor].
Qed.

End FloatDefaultWeights.

Lemma float32_rank_100_default_weights_witness :
  exists v,
    Float.weighted_percentile np.argsort [3; 1; 2] (QScalar 100) None None = Some (Ok [v]) /\
    is_maximum v (Float.asarray32 [3; 1; 2]).
Proof.
  apply (float32_rank_100_default_weights np.argsort argsort_valid_sorter [3; 1; 2] None).
  - discriminate.
  - vm_compute. discriminate.
  - exact I.
  - vm_compute. discriminate.
Defined.
